(** * goql: struct-tag driven GraphQL operation marshalling

    A shallow embedding of the marshalling core of the [goql] package
    ([query.go], [util.go] and the sparse-fieldset helpers), together with the
    properties the package documentation states about it.

    Conventions of the embedding.
    - A Go [string] is a Rocq [string] (a sequence of bytes).  Where the Go
      code ranges over a string it decodes UTF-8; that is [range_string].
      [strings.Builder.WriteRune] is [WriteRune].
    - A Go [rune] is a [Z].
    - [map[string]T] is a [gmap string T]; a nil map is [None].  Where the
      code writes into a map it was passed (Union), the maps live in a
      [heap] and are passed by address.
    - [io.Writer] is the string written so far, threaded through the
      renderer.
    - A function returning [(T, error)] returns a [result T]; a run-time
      panic is the error [Panic].
    - [reflect.Type] is the inductive [rtype]; only finite (non-recursive)
      type descriptions are representable. *)

From Stdlib Require Import ZArith Ascii String List Bool Lia Permutation.
From stdpp Require Import base option list gmap strings fin_maps.

#[local] Open Scope Z_scope.

(* ===================================================================== *)
(** ** Bytes, runes and UTF-8 *)
(* ===================================================================== *)

Definition rune := Z.

Definition byte_val (a : ascii) : Z := Z.of_N (N_of_ascii a).
Definition byte_chr (b : Z) : ascii := ascii_of_N (Z.to_N b).

Fixpoint bytes (s : string) : list Z :=
  match s with
  | EmptyString => []
  | String a s' => byte_val a :: bytes s'
  end.

Fixpoint str (bs : list Z) : string :=
  match bs with
  | [] => EmptyString
  | b :: bs' => String (byte_chr b) (str bs')
  end.

Definition RuneError : rune := 0xFFFD.
Definition RuneSelf : Z := 0x80.
Definition MaxRune : rune := 0x10FFFF.
Definition MaxASCII : rune := 0x7F.
Definition MaxLatin1 : rune := 0xFF.

Definition between (lo hi b : Z) : bool := (lo <=? b) && (b <=? hi).

(** Continuation byte of a UTF-8 sequence. *)
Definition is_cont (b : Z) : bool := between 0x80 0xBF b.

(** Accepted range of the second byte, by first byte ([utf8.acceptRanges]). *)
Definition accept_lo (b0 : Z) : Z :=
  if b0 =? 0xE0 then 0xA0 else if b0 =? 0xF0 then 0x90 else 0x80.
Definition accept_hi (b0 : Z) : Z :=
  if b0 =? 0xED then 0x9F else if b0 =? 0xF4 then 0x8F else 0xBF.

(** [utf8.DecodeRuneInString]: the first rune of the bytes and its width.
    An invalid or truncated sequence decodes to [RuneError] of width 1. *)
Definition DecodeRune (bs : list Z) : rune * nat :=
  match bs with
  | [] => (RuneError, 0%nat)
  | b0 :: t =>
      if b0 <? RuneSelf then (b0, 1%nat)
      else if between 0xC2 0xDF b0 then
        match t with
        | b1 :: _ =>
            if is_cont b1
            then (Z.lor (Z.shiftl (Z.land b0 0x1F) 6) (Z.land b1 0x3F), 2%nat)
            else (RuneError, 1%nat)
        | _ => (RuneError, 1%nat)
        end
      else if between 0xE0 0xEF b0 then
        match t with
        | b1 :: b2 :: _ =>
            if between (accept_lo b0) (accept_hi b0) b1 && is_cont b2
            then (Z.lor (Z.shiftl (Z.land b0 0x0F) 12)
                    (Z.lor (Z.shiftl (Z.land b1 0x3F) 6) (Z.land b2 0x3F)), 3%nat)
            else (RuneError, 1%nat)
        | _ => (RuneError, 1%nat)
        end
      else if between 0xF0 0xF4 b0 then
        match t with
        | b1 :: b2 :: b3 :: _ =>
            if between (accept_lo b0) (accept_hi b0) b1 && is_cont b2 && is_cont b3
            then (Z.lor (Z.shiftl (Z.land b0 0x07) 18)
                    (Z.lor (Z.shiftl (Z.land b1 0x3F) 12)
                       (Z.lor (Z.shiftl (Z.land b2 0x3F) 6) (Z.land b3 0x3F))), 4%nat)
            else (RuneError, 1%nat)
        | _ => (RuneError, 1%nat)
        end
      else (RuneError, 1%nat)
  end.

(** [for _, r := range s]: the runes of [s] in order.  [skip] counts the
    bytes of the current rune that are still to be passed over. *)
Fixpoint range_bytes (skip : nat) (bs : list Z) : list rune :=
  match bs with
  | [] => []
  | _ :: t =>
      match skip with
      | S k => range_bytes k t
      | O => let '(r, size) := DecodeRune bs in r :: range_bytes (Nat.pred size) t
      end
  end.

Definition range_string (s : string) : list rune := range_bytes 0 (bytes s).

(** [utf8.AppendRune]. *)
Definition EncodeRune (r : rune) : list Z :=
  if between 0 0x7F r then [r]
  else if between 0x80 0x7FF r then
    [Z.lor 0xC0 (Z.shiftr r 6); Z.lor 0x80 (Z.land r 0x3F)]
  else if (r <? 0) || (MaxRune <? r) || between 0xD800 0xDFFF r then
    [0xEF; 0xBF; 0xBD]
  else if r <=? 0xFFFF then
    [Z.lor 0xE0 (Z.shiftr r 12); Z.lor 0x80 (Z.land (Z.shiftr r 6) 0x3F);
     Z.lor 0x80 (Z.land r 0x3F)]
  else
    [Z.lor 0xF0 (Z.shiftr r 18); Z.lor 0x80 (Z.land (Z.shiftr r 12) 0x3F);
     Z.lor 0x80 (Z.land (Z.shiftr r 6) 0x3F); Z.lor 0x80 (Z.land r 0x3F)].

(** [strings.Builder.WriteRune]. *)
Definition WriteRune (sb : string) (r : rune) : string := sb +:+ str (EncodeRune r).

(** [strings.ContainsRune(s, r)]. *)
Definition ContainsRune (s : string) (r : rune) : bool :=
  existsb (Z.eqb r) (range_string s).

(* ===================================================================== *)
(** ** query.go: splitTag *)
(* ===================================================================== *)

Record splitState := SplitState {
  ss_sb : string;          (* var sb strings.Builder *)
  ss_split : list string;  (* var split []string *)
  ss_inArgs : bool         (* var inArgs bool *)
}.

Definition comma : rune := 44.

(** One iteration of the loop over the runes of the tag. *)
Definition splitTag_step (st : splitState) (r : rune) : splitState :=
  let inArgs := if ContainsRune "()" r then negb (ss_inArgs st) else ss_inArgs st in
  if (r =? comma) && negb inArgs
  then SplitState EmptyString (ss_split st ++ [ss_sb st]) inArgs
  else SplitState (WriteRune (ss_sb st) r) (ss_split st) inArgs.

Definition splitTag_loop (rs : list rune) (st : splitState) : splitState :=
  fold_left splitTag_step rs st.

(** splitTag takes a tag and splits it into directives and declarations. *)
Definition splitTag (tag : string) : list string :=
  let st := splitTag_loop (range_string tag) (SplitState EmptyString [] false) in
  ss_split st ++ [ss_sb st].


(* ===================================================================== *)
(** ** Package unicode *)
(* ===================================================================== *)

(** The range tables of Go's [unicode] package are data of the standard
    library.  Its functions answer for ASCII (and Latin-1) without a table,
    as written out below; beyond that they consult the tables, which are a
    parameter of the embedding. *)
Record unicodeTables := UnicodeTables {
  To_LowerCase : rune -> rune;           (* unicode.To(unicode.LowerCase, r) *)
  To_UpperCase : rune -> rune;           (* unicode.To(unicode.UpperCase, r) *)
  Letter_excludingLatin : rune -> bool;  (* isExcludingLatin(Letter, r) *)
  White_Space_excludingLatin : rune -> bool
}.

(** Letters of Latin-1 (the [pLmask] bits of [unicode.properties]). *)
Definition latin1_letter (r : rune) : bool :=
  between 65 90 r || between 97 122 r
  || (r =? 0xAA) || (r =? 0xB5) || (r =? 0xBA)
  || between 0xC0 0xD6 r || between 0xD8 0xF6 r || between 0xF8 0xFF r.

Definition latin1_space (r : rune) : bool :=
  between 9 13 r || (r =? 32) || (r =? 0x85) || (r =? 0xA0).

Section Unicode.
Context (U : unicodeTables).

Definition ToLower (r : rune) : rune :=
  if r <=? MaxASCII then (if between 65 90 r then r + 32 else r)
  else To_LowerCase U r.

Definition ToUpper (r : rune) : rune :=
  if r <=? MaxASCII then (if between 97 122 r then r - 32 else r)
  else To_UpperCase U r.

Definition IsLetter (r : rune) : bool :=
  if between 0 MaxLatin1 r then latin1_letter r else Letter_excludingLatin U r.

Definition IsSpace (r : rune) : bool :=
  if between 0 MaxLatin1 r then latin1_space r else White_Space_excludingLatin U r.
End Unicode.

(* ===================================================================== *)
(** ** Package strings *)
(* ===================================================================== *)

(** [utf8.RuneStart]. *)
Definition RuneStart (b : Z) : bool := negb (Z.land b 0xC0 =? 0x80).

(** Position (counted back from the last byte) of the first [RuneStart]
    byte among at most [n] bytes of the reversed prefix [rbs]. *)
Fixpoint find_start (n : nat) (rbs : list Z) : option nat :=
  match n, rbs with
  | S n', b :: t => if RuneStart b then Some O else S <$> find_start n' t
  | _, _ => None
  end.

(** [utf8.DecodeLastRuneInString], on the reversed bytes of the string. *)
Definition DecodeLastRune (rbs : list Z) : rune * nat :=
  match rbs with
  | [] => (RuneError, 0%nat)
  | b :: before =>
      if b <? RuneSelf then (b, 1%nat)
      else match find_start 3 before with
           | Some d =>
               let '(r, size) := DecodeRune (rev (take (S d) before) ++ [b]) in
               if Nat.eqb size (S (S d)) then (r, size) else (RuneError, 1%nat)
           | None => (RuneError, 1%nat)
           end
  end.

(** [strings.TrimLeftFunc(s, f)] on bytes. *)
Fixpoint TrimLeftFunc_bytes (f : rune -> bool) (skip : nat) (bs : list Z) : list Z :=
  match bs with
  | [] => []
  | _ :: t =>
      match skip with
      | S k => TrimLeftFunc_bytes f k t
      | O => let '(r, size) := DecodeRune bs in
             if f r then TrimLeftFunc_bytes f (Nat.pred size) t else bs
      end
  end.

(** [strings.TrimRightFunc(s, f)] on the reversed bytes. *)
Fixpoint TrimRightFunc_rev (f : rune -> bool) (skip : nat) (rbs : list Z) : list Z :=
  match rbs with
  | [] => []
  | _ :: t =>
      match skip with
      | S k => TrimRightFunc_rev f k t
      | O => let '(r, size) := DecodeLastRune rbs in
             if f r then TrimRightFunc_rev f (Nat.pred size) t else rbs
      end
  end.

(** [strings.TrimSpace]. *)
Definition TrimSpace (U : unicodeTables) (s : string) : string :=
  str (rev (TrimRightFunc_rev (IsSpace U) 0
              (rev (TrimLeftFunc_bytes (IsSpace U) 0 (bytes s))))).

Definition drop_while {A} (f : A -> bool) : list A -> list A :=
  fix go l := match l with
              | [] => []
              | x :: t => if f x then go t else l
              end.

(** [strings.Trim(s, cutset)] for a cutset of ASCII bytes. *)
Definition Trim (s cutset : string) : string :=
  let inset b := existsb (Z.eqb b) (bytes cutset) in
  str (rev (drop_while inset (rev (drop_while inset (bytes s))))).

Fixpoint prefix_bytes (p s : list Z) : bool :=
  match p, s with
  | [], _ => true
  | a :: p', b :: s' => (a =? b) && prefix_bytes p' s'
  | _ :: _, [] => false
  end.

(** [strings.HasPrefix]. *)
Definition HasPrefix (s p : string) : bool := prefix_bytes (bytes p) (bytes s).

(** [strings.Index] on bytes: [None] is Go's -1. *)
Fixpoint Index_bytes (s sub : list Z) : option nat :=
  if prefix_bytes sub s then Some O
  else match s with
       | [] => None
       | _ :: t => S <$> Index_bytes t sub
       end.

Definition Index (s sub : string) : option nat := Index_bytes (bytes s) (bytes sub).

(** [s[i:]] and [s[:i]] for indices within bounds. *)
Definition slice_from (i : nat) (s : string) : string := str (drop i (bytes s)).
Definition slice_to (i : nat) (s : string) : string := str (take i (bytes s)).

(** [strings.Join]. *)
Fixpoint Join (l : list string) (sep : string) : string :=
  match l with
  | [] => EmptyString
  | [x] => x
  | x :: t => x +:+ sep +:+ Join t sep
  end.

(** [strings.Count] for a non-empty [sub]: non-overlapping occurrences. *)
Fixpoint Count_fuel (fuel : nat) (s sub : list Z) : nat :=
  match fuel with
  | O => O
  | S fuel' =>
      match Index_bytes s sub with
      | None => O
      | Some i => S (Count_fuel fuel' (drop (i + length sub)%nat s) sub)
      end
  end.

(** [strings.Count]. *)
Definition Count (s sub : string) : nat :=
  match bytes sub with
  | [] => S (length (range_string s))        (* utf8.RuneCountInString(s) + 1 *)
  | _ => Count_fuel (S (length (bytes s))) (bytes s) (bytes sub)
  end.

(** [strings.explode(s, -1)]: one piece per UTF-8 sequence. *)
Fixpoint explode_fuel (fuel : nat) (s : list Z) : list string :=
  match fuel, s with
  | S fuel', _ :: _ =>
      let '(_, size) := DecodeRune s in
      str (take size s) :: explode_fuel fuel' (drop size s)
  | _, _ => []
  end.

Fixpoint Split_fuel (fuel : nat) (s sep : list Z) : list string :=
  match fuel with
  | O => [str s]
  | S fuel' =>
      match Index_bytes s sep with
      | None => [str s]
      | Some m => str (take m s) :: Split_fuel fuel' (drop (m + length sep)%nat s) sep
      end
  end.

(** [strings.Split]. *)
Definition Split (s sep : string) : list string :=
  match bytes sep with
  | [] => explode_fuel (length (bytes s)) (bytes s)
  | _ => Split_fuel (length (bytes s)) (bytes s) (bytes sep)
  end.

(* ===================================================================== *)
(** ** Errors *)
(* ===================================================================== *)

Inductive error :=
| ErrParseTag (tag : string)
| ErrDuplicateDirective (ty : string)
| ErrUnknownDirective (ty : string)
| ErrConflictingType (arg : string)
| ErrTrueHasChildren (name : string)
| ErrSubmapNoChildren (name : string)
| ErrNotStruct (kind : string)
| Panic (what : string).

Definition dquote : string := String (ascii_of_nat 34) EmptyString.

(** The message each [fmt.Errorf] of the package formats. *)
Definition Error (e : error) : string :=
  match e with
  | ErrParseTag tag => "failed to parse tag " +:+ dquote +:+ tag +:+ dquote
  | ErrDuplicateDirective ty => "duplicate directive in tag " +:+ dquote +:+ ty +:+ dquote
  | ErrUnknownDirective ty => "unknown directive in tag " +:+ dquote +:+ ty +:+ dquote
  | ErrConflictingType arg => "argument $" +:+ arg +:+ " cannot have more than one type"
  | ErrTrueHasChildren name =>
      "field " +:+ name +:+
      " set to true in sparse fieldset map has children fields, needs submap for children fields"
  | ErrSubmapNoChildren name =>
      "field " +:+ name +:+
      " set to a submap of fields in sparse fieldset map has no children fields, needs to be set to true or false"
  | ErrNotStruct kind => "expecting struct type, got " +:+ kind
  | Panic what => "panic: " +:+ what
  end.

Inductive result (A : Type) :=
| Ok (a : A)
| Err (e : error).
Arguments Ok {A} a.
Arguments Err {A} e.

Definition bind {A B} (r : result A) (k : A -> result B) : result B :=
  match r with
  | Ok a => k a
  | Err e => Err e
  end.

Definition is_ok {A} (r : result A) : bool :=
  match r with Ok _ => true | Err _ => false end.

(* ===================================================================== *)
(** ** query.go: tokens, declarations, directives, fields *)
(* ===================================================================== *)

(** token represents arguments and variables used throughout a GraphQL query. *)
Record token := Token {
  t_Kind : string;
  t_Name : string;
  t_Arg : string
}.

Definition token_zero : token := Token EmptyString EmptyString EmptyString.

#[global] Instance token_eq_dec : EqDecision token.
Proof. solve_decision. Defined.

(** declaration represents a field or model in a GraphQL operation. *)
Record declaration := Declaration {
  d_Name : string;
  d_Alias : string;
  d_Tokens : list token;
  d_Template : string
}.

Definition declaration_zero : declaration :=
  Declaration EmptyString EmptyString [] EmptyString.

Definition directiveEnum := string.
Definition directiveAlias : directiveEnum := "alias".
Definition directiveSkip : directiveEnum := "skip".
Definition directiveInclude : directiveEnum := "include".

(** directive represents a directive for a field or model. *)
Record directive := Directive {
  dir_Type : directiveEnum;
  dir_Token : token;
  dir_Template : string
}.

(** field represents a field or model in a GraphQL query. *)
#[warnings="-register-all"]
Inductive field := Field {
  f_Decl : declaration;
  f_Directives : list directive;
  f_Fields : list field;
  f_Keep : bool
}.

Definition field_zero : field := Field declaration_zero [] [] false.

(** tokens gathers all tokens of the field and of its children fields. *)
Fixpoint tokens (f : field) : list token :=
  d_Tokens (f_Decl f)
  ++ filter (fun t => t <> token_zero) (map dir_Token (f_Directives f))
  ++ flat_map tokens (f_Fields f).

(** Go leaves the order in which [range] visits a map unspecified, and
    varies it from one loop to the next.  A [rangeOrder] is one such choice:
    any rearrangement of the entries. *)
Record rangeOrder := RangeOrder {
  range_of : list (string * string) -> list (string * string);
  range_perm : forall l, Permutation (range_of l) l
}.

(** The first loop of argsFromTokens: the variables seen so far with their
    types, or the conflict that stops the loop. *)
Fixpoint argsMap_loop (toks : list token) (argsMap : gmap string string)
  : result (gmap string string) :=
  match toks with
  | [] => Ok argsMap
  | tok :: rest =>
      match argsMap !! t_Arg tok with
      | Some kind =>
          if decide (t_Kind tok <> kind)
          then Err (ErrConflictingType (t_Arg tok))
          else argsMap_loop rest argsMap
      | None => argsMap_loop rest (<[t_Arg tok := t_Kind tok]> argsMap)
      end
  end.

Definition arg_entry (e : string * string) : string :=
  "$" +:+ e.1 +:+ ": " +:+ e.2.

(** argsFromTokens validates that there are no conflicting type statements
    and returns strings of the form "$<arg>: <Type>". *)
Definition argsFromTokens (ro : rangeOrder) (toks : list token) : result (list string) :=
  bind (argsMap_loop toks ∅) (fun argsMap =>
  Ok (map arg_entry (range_of ro (map_to_list argsMap)))).

(* ===================================================================== *)
(** ** util.go *)
(* ===================================================================== *)

(** specialStrings holds the strings that the rules of toLowerCamelCase do
    not render as desired. *)
Definition specialStrings : gmap string string := {[ "ID" := "id" ]}.

Record camelState := CamelState {
  cs_sb : string;
  cs_capNextRune : bool
}.

Section Camel.
Context (U : unicodeTables).

(** One iteration of the loop over [in[1:]]. *)
Definition camel_step (st : camelState) (r : rune) : camelState :=
  if negb (IsLetter U r) && (IsSpace U r || ContainsRune "-_." r)
  then CamelState (cs_sb st) true
  else if cs_capNextRune st
  then CamelState (WriteRune (cs_sb st) (ToUpper U r)) false
  else CamelState (WriteRune (cs_sb st) r) (cs_capNextRune st).

(** toLowerCamelCase transforms a string into lower camel case format. *)
Definition toLowerCamelCase (in_ : string) : string :=
  match bytes in_ with
  | [] => in_
  | in0 :: rest =>
      match specialStrings !! in_ with
      | Some out => out
      | None =>
          let sb := WriteRune EmptyString (ToLower U in0) in
          cs_sb (fold_left camel_step (range_bytes 0 rest) (CamelState sb false))
      end
  end.
End Camel.

(** stack holds the fields under construction; the top is the last item. *)
Record stack := Stack { items : list field }.

Definition stack_length (s : stack) : nat := length (items s).

Definition push (s : stack) (f : field) : stack := Stack (items s ++ [f]).

(** pop removes and returns the top; on an empty stack the index is out of
    range. *)
Definition pop (s : stack) : result (field * stack) :=
  match last (items s) with
  | Some front => Ok (front, Stack (removelast (items s)))
  | None => Err (Panic "index out of range")
  end.

Definition top (s : stack) : result field :=
  match last (items s) with
  | Some f => Ok f
  | None => Err (Panic "index out of range")
  end.

(** apply changes the element on top of the stack, if there is one. *)
Definition apply (s : stack) (fn : field -> field) : stack :=
  match last (items s) with
  | Some f => Stack (removelast (items s) ++ [fn f])
  | None => s
  end.

(* ===================================================================== *)
(** ** Sparse fieldsets: Fields, Union, FieldsFromDelimitedList *)
(* ===================================================================== *)

(** A value stored in a [Fields] map (an [interface{}]): a boolean, a nested
    [Fields] (itself possibly the nil map), or a value of any other dynamic
    type.  The nil interface, which reading an absent key yields, is [None]
    of [option ifc]. *)
#[warnings="-register-all"]
Inductive ifc :=
| IBool (b : bool)
| IFields (m : option (gmap string ifc))
| IOther (v : Z).

(** Fields is a map[string]interface{}; [None] is the nil map. *)
Abbreviation Fields := (option (gmap string ifc)).

(** [x[k]] read through a possibly nil map. *)
Definition index (x : Fields) (k : string) : option ifc := x ≫= (.!! k).

(** [x[k] = v]: assignment to an entry of a nil map panics. *)
Definition assign (x : Fields) (k : string) (v : ifc) : result Fields :=
  match x with
  | Some m => Ok (Some (<[k := v]> m))
  | None => Err (Panic "assignment to entry in nil map")
  end.

(** A Go map is a reference: Union writes into the map its first argument
    refers to and into the maps nested in it, and stores the nested maps of
    its second argument as they are, by reference.  [heap] holds the maps
    by address; a [Fields] in memory is an address, or nil ([None]), and a
    value stored in a map ([hval]) is a boolean, a [Fields], or a value of
    another dynamic type. *)
Definition addr := positive.

Inductive hval :=
| HBool (b : bool)
| HFields (p : option addr)
| HOther (v : Z).

Abbreviation heap := (gmap addr (gmap string hval)).

Definition map_at (h : heap) (p : addr) : gmap string hval := default ∅ (h !! p).

(** [x[k]] read through a possibly nil map. *)
Definition heap_index (h : heap) (x : option addr) (k : string) : option hval :=
  x ≫= (fun p => map_at h p !! k).

(** [x[k] = v]: the map at [x] is written in place; assignment to an entry
    of a nil map panics. *)
Definition heap_assign (h : heap) (x : option addr) (k : string) (v : hval) : result heap :=
  match x with
  | Some p => Ok (<[p := <[k := v]> (map_at h p)]> h)
  | None => Err (Panic "assignment to entry in nil map")
  end.

(** The order in which a [range] visits the keys of the map at an address:
    any rearrangement of them. *)
Record keyOrder := KeyOrder {
  keys_of : addr -> list string -> list string;
  keys_perm : forall p l, Permutation (keys_of p l) l
}.

(** The body of the loop of Union for the key [k]; [v] is read when the
    loop reaches the key.  [rec] is the recursive call. *)
Definition Union_body
    (rec : option addr -> option addr -> heap -> option (result (option addr * heap)))
    (x y : option addr) (k : string) (h : heap) : option (result heap) :=
  match heap_index h y k with
  | None => Some (Ok h)
  | Some v =>
      match heap_index h x k with
      | None => Some (heap_assign h x k v)
      | Some (HFields xInner) =>
          match v with
          | HFields yInner =>
              match rec xInner yInner h with
              | Some (Ok (u, h')) => Some (heap_assign h' x k (HFields u))
              | Some (Err e) => Some (Err e)
              | None => None
              end
          | _ => Some (Ok h)
          end
      | Some _ => Some (heap_assign h x k v)
      end
  end.

(** The loop over the keys of the map at [py].  Where the writes of the
    loop add a key to the very map it ranges over, Go leaves open whether
    the loop reaches the new key: the model gives no outcome there
    ([None]). *)
Fixpoint Union_loop (body : string -> heap -> option (result heap)) (py : addr)
    (keys : gset string) (ks : list string) (h : heap) : option (result heap) :=
  match ks with
  | [] => Some (Ok h)
  | k :: ks =>
      match body k h with
      | Some (Ok h') =>
          if decide (dom (map_at h' py) = keys) then Union_loop body py keys ks h' else None
      | Some (Err e) => Some (Err e)
      | None => None
      end
  end.

(** Union takes the union of two Fields, in place: it returns its first
    argument.  [fuel] bounds the depth of the recursion, which has no end
    on maps that contain themselves; [None] is fuel run out, or the outcome
    Go leaves open. *)
Fixpoint Union (fuel : nat) (ko : keyOrder) (x y : option addr) (h : heap)
  : option (result (option addr * heap)) :=
  match fuel with
  | O => None
  | Datatypes.S fuel' =>
      match y with
      | None => Some (Ok (x, h))
      | Some py =>
          match Union_loop (Union_body (Union fuel' ko) x y) py (dom (map_at h py))
                  (keys_of ko py (elements (dom (map_at h py)))) h with
          | Some (Ok h') => Some (Ok (x, h'))
          | Some (Err e) => Some (Err e)
          | None => None
          end
      end
  end.

(** The union of two Fields as values, with no memory: what Union leaves
    in its first argument when the two arguments share no map
    ([Union_refines]).  The recursion descends through the values of [y];
    [Union_val (IFields y) x] is the union of [x] and [y].  The body of the
    loop touches only the entry [x[k]] of the key [k] it visits. *)
Fixpoint Union_val (y : ifc) (x : Fields) {struct y} : result Fields :=
  match y with
  | IFields (Some ym) =>
      map_fold (fun k v acc =>
        bind acc (fun x =>
          match index x k with
          | None => assign x k v
          | Some (IFields xInner) =>
              match v with
              | IFields _ => bind (Union_val v xInner) (fun u => assign x k (IFields u))
              | _ => Ok x
              end
          | Some _ => assign x k v
          end)) (Ok x) ym
  | _ => Ok x
  end.

Definition Union_pure (x y : Fields) : result Fields := Union_val (IFields y) x.

(** [tree h v i F]: in the heap [h] the stored value [v] is the fieldset
    value [i], laid out as a tree: every map of it is reached along one
    path only.  [F] bounds the addresses of its maps; [fp k] bounds those
    under the key [k]. *)
Inductive tree (h : heap) : hval -> ifc -> gset addr -> Prop :=
| tree_bool b F : tree h (HBool b) (IBool b) F
| tree_other v F : tree h (HOther v) (IOther v) F
| tree_nil F : tree h (HFields None) (IFields None) F
| tree_map p hm m (fp : string -> gset addr) F :
    h !! p = Some hm ->
    p ∈ F ->
    dom hm = dom m ->
    (forall k hv v, hm !! k = Some hv -> m !! k = Some v -> tree h hv v (fp k)) ->
    (forall k, fp k ⊆ F ∖ {[p]}) ->
    (forall k1 k2, k1 <> k2 -> fp k1 ## fp k2) ->
    tree h (HFields (Some p)) (IFields (Some m)) F.

(** The arguments on which Union panics: a nil first argument with a
    second that has a key, at the top or under a key that both map to
    nested Fields. *)
Inductive clash : Fields -> Fields -> Prop :=
| clash_nil (b : gmap string ifc) : b <> ∅ -> clash None (Some b)
| clash_nested (a b : gmap string ifc) k xi yi :
    a !! k = Some (IFields xi) -> b !! k = Some (IFields yi) -> clash xi yi ->
    clash (Some a) (Some b).

(** The size of a fieldset value, nested fieldsets counted in. *)
Fixpoint ifc_size (v : ifc) : nat :=
  match v with
  | IFields (Some m) => Datatypes.S (map_fold (fun _ v acc => ifc_size v + acc)%nat O m)
  | _ => 1%nat
  end.

(** addRawFieldToFields adds the (possibly delimited) raw field to [fields].
    [fuel] bounds the recursion on the leftover, which is shorter than
    [raw]. *)
Fixpoint addRawFieldToFields_fuel (fuel : nat) (raw delimiter : string) (fields : Fields)
  : result Fields :=
  match fuel with
  | O => Err (Panic "recursion bound")
  | S fuel' =>
      if decide (0 < Count raw delimiter)%nat then
        match Index raw delimiter with
        | None => Err (Panic "slice bounds out of range")
        | Some split =>
            let current := slice_to split raw in
            if decide (length (bytes raw) < split + 1)%nat
            then Err (Panic "slice bounds out of range")
            else
              let leftover := slice_from (split + 1) raw in
              bind (match index fields current with
                    | Some (IFields _) => Ok fields
                    | _ => assign fields current (IFields (Some ∅))
                    end) (fun fields =>
              match index fields current with
              | Some (IFields inner) =>
                  bind (addRawFieldToFields_fuel fuel' leftover delimiter inner) (fun inner' =>
                  assign fields current (IFields inner'))
              | _ => Err (Panic "interface conversion")
              end)
        end
      else assign fields raw (IBool true)
  end.

Definition addRawFieldToFields (raw delimiter : string) (fields : Fields) : result Fields :=
  addRawFieldToFields_fuel (S (length (bytes raw))) raw delimiter fields.

(** FieldsFromDelimitedList transforms a delimited list into a Fields. *)
Definition FieldsFromDelimitedList (list_ fieldDelimiter subFieldDelimiter : string)
  : result Fields :=
  if decide (list_ = EmptyString) then Ok None
  else
    fold_left (fun acc rawField =>
                 bind acc (addRawFieldToFields rawField subFieldDelimiter))
              (Split list_ fieldDelimiter) (Ok (Some ∅)).

Definition FieldsFromURLQueryParam (raw : string) : result Fields :=
  FieldsFromDelimitedList raw "," ".".

(* ===================================================================== *)
(** ** query.go: rendering *)
(* ===================================================================== *)

Definition newline : string := String (ascii_of_nat 10) EmptyString.

(** tokenize returns a string representation of a slice of tokens. *)
Definition tokenize (toks : list token) : string :=
  Join (map (fun t => t_Name t +:+ ": $" +:+ t_Arg t) toks) ", ".

(** declaration.tokenize writes the declaration to the writer [w]. *)
Definition declaration_tokenize (d : declaration) (w : string) : string :=
  let w := if decide (d_Alias d <> EmptyString) then w +:+ d_Alias d +:+ ": " else w in
  if decide (d_Template d <> EmptyString)
  then w +:+ d_Name d +:+ "(" +:+ tokenize (d_Tokens d) +:+ ")"
  else w +:+ d_Name d.

(** directive.tokenize writes the directive to the writer [w]. *)
Definition directive_tokenize (d : directive) (w : string) : string :=
  w +:+ "@" +:+ dir_Type d +:+ "(if: $" +:+ t_Arg (dir_Token d) +:+ ")".

(** The loop that writes every directive after a space. *)
Definition write_directives (ds : list directive) (w : string) : string :=
  fold_left (fun w d => directive_tokenize d (w +:+ " ")) ds w.

(** The type switch that opens tokenizeWithFields: the value of [write], or
    the error returned at once. *)
Definition fieldset_switch (f : field) (fields : option ifc) : result bool :=
  match fields with
  | Some (IBool ts) =>
      if decide (0 < length (f_Fields f))%nat
      then Err (ErrTrueHasChildren (d_Name (f_Decl f)))
      else Ok ts
  | Some (IFields _) =>
      if decide (length (f_Fields f) = 0)%nat
      then Err (ErrSubmapNoChildren (d_Name (f_Decl f)))
      else Ok true
  | _ => Ok false
  end.

(** The fieldset entry handed to a child of a node whose own entry is
    [fields]. *)
Definition child_entry (fields : option ifc) (child : field) : option ifc :=
  match fields with
  | Some (IFields ts) => index ts (d_Name (f_Decl child))
  | _ => None
  end.

(** The loop over the children of a field, common to tokenizeWithFields and
    tokenize: [g] writes one child; a child that was written is followed by
    a newline; the first error ends the loop. *)
Definition write_children (g : field -> string -> string * result bool)
  : list field -> string -> string * result unit :=
  fix loop (l : list field) (w : string) : string * result unit :=
    match l with
    | [] => (w, Ok tt)
    | child :: rest =>
        match g child w with
        | (w, Err e) => (w, Err e)
        | (w, Ok written) => loop rest (if written then w +:+ newline else w)
        end
    end.

(** tokenizeWithFields writes the field and its children, but only if the
    fieldset entry [fields] of the field asks for it or the field has Keep
    switched on.  Returns the writer, and whether the field was written or
    the error. *)
Fixpoint tokenizeWithFields (f : field) (fields : option ifc) (w : string) {struct f}
  : string * result bool :=
  match fieldset_switch f fields with
  | Err e => (w, Err e)
  | Ok write =>
      let write := if f_Keep f then true else write in
      if negb write then (w, Ok false)
      else
        let w := declaration_tokenize (f_Decl f) w in
        let w := write_directives (f_Directives f) w in
        match f_Fields f with
        | [] => (w, Ok write)
        | children =>
            match write_children
                    (fun child => tokenizeWithFields child (child_entry fields child))
                    children (w +:+ " {" +:+ newline) with
            | (w, Err e) => (w, Err e)
            | (w, Ok _) => (w +:+ "}", Ok write)
            end
        end
  end.

(** field.tokenize writes the directives and the children of the field.
    Where the source calls tokenizeAsLeaf on a child, its two statements are
    written out (tokenizeAsLeaf is defined from field_tokenize below). *)
Fixpoint field_tokenize (f : field) (fields : Fields) (w : string) {struct f}
  : string * result bool :=
  let w := write_directives (f_Directives f) w in
  match f_Fields f with
  | [] => (w, Ok true)
  | children =>
      match write_children
              (fun child w =>
                 match fields with
                 | None => field_tokenize child None (declaration_tokenize (f_Decl child) w)
                 | Some _ => tokenizeWithFields child (Some (IFields fields)) w
                 end)
              children (w +:+ " {" +:+ newline) with
      | (w, Err e) => (w, Err e)
      | (w, Ok _) => (w +:+ "}", Ok true)
      end
  end.


(** tokenizeAsRoot writes the given declaration name instead of the
    declaration of the field and continues the regular tokenization. *)
Definition tokenizeAsRoot (f : field) (declName : string) (fields : Fields) (w : string)
  : string * result bool :=
  field_tokenize f fields (w +:+ declName).

(* ===================================================================== *)
(** ** query.go: the compiled regular expressions *)
(* ===================================================================== *)

(** The patterns contain ASCII only and every repetition in them is followed
    by a byte outside the repeated class, so matching is deterministic and
    is written out on bytes. *)

(** [\w]: the class [0-9A-Za-z_]. *)
Definition is_word (b : Z) : bool :=
  between 48 57 b || between 65 90 b || between 97 122 b || (b =? 95).

(** The longest prefix of word bytes, and the rest. *)
Fixpoint span_word (bs : list Z) : list Z * list Z :=
  match bs with
  | b :: t => if is_word b then let '(w, r) := span_word t in (b :: w, r) else ([], bs)
  | [] => ([], [])
  end.

Definition nonempty {A} (l : list A) : bool :=
  match l with [] => false | _ => true end.

(** An optional byte [c] in front of [bs]: what was taken, and the rest. *)
Definition opt_byte (c : Z) (bs : list Z) : list Z * list Z :=
  match bs with
  | b :: t => if b =? c then ([c], t) else ([], bs)
  | [] => ([], [])
  end.

(** The byte [c] in front of [bs]: the rest, if it is there. *)
Definition eat (c : Z) (bs : list Z) : option (list Z) :=
  match bs with
  | b :: t => if b =? c then Some t else None
  | [] => None
  end.

(** A non-empty run of word bytes in front of [bs]: the run and the rest. *)
Definition word_run (bs : list Z) : option (list Z * list Z) :=
  let '(w, r) := span_word bs in if nonempty w then Some (w, r) else None.

(** reName matches a simple field or model name: [^\w+$]. *)
Definition reName_MatchString (s : string) : bool :=
  match word_run (bytes s) with
  | Some (_, []) => true
  | _ => false
  end.

(** One match of reParam, [(\w+):\$(\w+)<(\[?\w+!?]?)>], at the front of [bs]:
    the parameter as a token, the matched text and what follows it.
    (58 is the colon, 36 the dollar, 60 and 62 the angle brackets, 91 and 93
    the square brackets, 33 the exclamation mark.) *)
Definition reParam_match_at (bs : list Z) : option (token * list Z * list Z) :=
  '(name, r1) ← word_run bs;
  r2 ← eat 58 r1;
  r3 ← eat 36 r2;
  '(arg, r4) ← word_run r3;
  r5 ← eat 60 r4;
  let '(lb, r6) := opt_byte 91 r5 in
  '(ty, r7) ← word_run r6;
  let '(bang, r8) := opt_byte 33 r7 in
  let '(rb, r9) := opt_byte 93 r8 in
  r10 ← eat 62 r9;
  let kind := lb ++ ty ++ bang ++ rb in
  Some (Token (str kind) (str name) (str arg),
        name ++ [58; 36] ++ arg ++ [60] ++ kind ++ [62], r10).

(** The tail [(?:param,?)*\)$] of reDecl (44 is the comma, 41 the closing
    parenthesis). *)
Fixpoint reDecl_args_tail (fuel : nat) (bs : list Z) : bool :=
  match fuel with
  | O => false
  | S fuel' =>
      match reParam_match_at bs with
      | Some (_, _, rest) => reDecl_args_tail fuel' (opt_byte 44 rest).2
      | None => match eat 41 bs with Some [] => true | _ => false end
      end
  end.

(** reDecl, [^(\w+)(\((?:\w+:\$\w+<\[?\w+!?]?>,?)*\))$]: the submatches
    [name] and [args] when the string matches (40 is the opening
    parenthesis). *)
Definition reDecl_FindStringSubmatch (s : string) : option (string * string) :=
  '(name, r1) ← word_run (bytes s);
  r2 ← eat 40 r1;
  if reDecl_args_tail (S (length r2)) r2 then Some (str name, str r1) else None.

Definition reDecl_MatchString (s : string) : bool :=
  bool_decide (is_Some (reDecl_FindStringSubmatch s)).

(** reDirective, [^@(\w+)(\(\$?\w+\))$]: the submatches [name] and [arg]
    (64 is the at sign). *)
Definition reDirective_FindStringSubmatch (s : string) : option (string * string) :=
  r0 ← eat 64 (bytes s);
  '(name, r1) ← word_run r0;
  r2 ← eat 40 r1;
  '(_, r4) ← word_run (opt_byte 36 r2).2;
  match eat 41 r4 with
  | Some [] => Some (str name, str r1)
  | _ => None
  end.

Definition reDirective_MatchString (s : string) : bool :=
  bool_decide (is_Some (reDirective_FindStringSubmatch s)).

(** The leftmost non-overlapping matches of reParam in [bs], in order, with
    the bytes between them: [inl b] is a byte outside every match, [inr] a
    match with its text. *)
Fixpoint reParam_scan (fuel : nat) (bs : list Z) : list (Z + token * list Z) :=
  match fuel, bs with
  | S fuel', b :: t =>
      match reParam_match_at bs with
      | Some (tok, text, rest) => inr (tok, text) :: reParam_scan fuel' rest
      | None => inl b :: reParam_scan fuel' t
      end
  | _, _ => []
  end.

(** [reParam.FindAllStringSubmatch(s, -1)], each match as a token. *)
Definition reParam_FindAll (s : string) : list token :=
  omap (fun m => match m with inr (tok, _) => Some tok | inl _ => None end)
       (reParam_scan (length (bytes s)) (bytes s)).

(** [reParam.ReplaceAllStringFunc(s, repl)]. *)
Definition reParam_ReplaceAllStringFunc (s : string) (repl : string -> string) : string :=
  str (flat_map (fun m => match m with
                          | inr (_, text) => bytes (repl (str text))
                          | inl b => [b]
                          end)
                (reParam_scan (length (bytes s)) (bytes s))).

(* ===================================================================== *)
(** ** query.go: parsing a tag *)
(* ===================================================================== *)

(** keep tag denotes a field that is always kept despite whatever the sparse
    fieldset information says. *)
Definition keepTag : string := "keep".

(** The replacement function of parseDecl: the parameter up to its first
    bracket. *)
Definition cut_at_bracket (param : string) : string :=
  match Index param "[" with
  | Some i => slice_to i param
  | None => param
  end.

(** parseDecl parses a declaration retrieved from a struct tag.  Indexing
    the submatches of a string that reDecl does not match panics. *)
Definition parseDecl (s : string) : result declaration :=
  match reDecl_FindStringSubmatch s with
  | None => Err (Panic "index out of range")
  | Some (name, args) =>
      let params := Trim args "()" in
      let toks := reParam_FindAll params in
      let template := reParam_ReplaceAllStringFunc params cut_at_bracket in
      Ok (Declaration name EmptyString toks template)
  end.

(** parseDirective parses a directive retrieved from a struct tag. *)
Definition parseDirective (s : string) : result directive :=
  match reDirective_FindStringSubmatch s with
  | None => Err (Panic "index out of range")
  | Some (name, arg) =>
      let dir := Directive name token_zero (Trim arg "()") in
      if decide (dir_Type dir = directiveAlias) then Ok dir
      else if decide (dir_Type dir = directiveInclude \/ dir_Type dir = directiveSkip) then
        if HasPrefix (dir_Template dir) "$"
        then Ok (Directive (dir_Type dir)
                   (Token "Boolean!" EmptyString (slice_from 1 (dir_Template dir)))
                   (dir_Template dir))
        else Ok dir
      else Err (ErrUnknownDirective (dir_Type dir))
  end.

(** The variables [f] and [alias] of parseTag. *)
Record parseState := ParseState {
  ps_f : field;
  ps_alias : string
}.

Definition set_Decl (f : field) (d : declaration) : field :=
  Field d (f_Directives f) (f_Fields f) (f_Keep f).
Definition set_Keep (f : field) (k : bool) : field :=
  Field (f_Decl f) (f_Directives f) (f_Fields f) k.
Definition set_Directives (f : field) (ds : list directive) : field :=
  Field (f_Decl f) ds (f_Fields f) (f_Keep f).
Definition set_Fields (f : field) (fs : list field) : field :=
  Field (f_Decl f) (f_Directives f) fs (f_Keep f).
Definition set_Alias (d : declaration) (a : string) : declaration :=
  Declaration (d_Name d) a (d_Tokens d) (d_Template d).
Definition set_Name (d : declaration) (n : string) : declaration :=
  Declaration n (d_Alias d) (d_Tokens d) (d_Template d).

(** Insertion into a slice sorted by Type.  sort.Slice is not stable; on
    short slices it is this insertion sort.  Below only the sequence of
    Types of the sorted slice is looked at, which every sort agrees on. *)
Fixpoint insert_directive (x : directive) (l : list directive) : list directive :=
  match l with
  | [] => [x]
  | y :: t =>
      if String.ltb (dir_Type x) (dir_Type y) then x :: l else y :: insert_directive x t
  end.

Definition sort_directives (l : list directive) : list directive :=
  fold_left (fun acc x => insert_directive x acc) l [].

(** The scan for duplicate directives: [prev] is [f.Directives[j]]. *)
Fixpoint check_duplicates (prev : directive) (rest : list directive) : result unit :=
  match rest with
  | [] => Ok tt
  | x :: t =>
      if decide (dir_Type x = dir_Type prev)
      then Err (ErrDuplicateDirective (dir_Type x))
      else check_duplicates x t
  end.

Section Parse.
Context (U : unicodeTables).

(** One iteration of the loop over the clauses of the tag. *)
Definition parseTag_item (tag : string) (st : parseState) (item : string)
  : result parseState :=
  let item := TrimSpace U item in
  let f := ps_f st in
  if decide (item = EmptyString) then Ok st
  else if reName_MatchString item && negb (bool_decide (item = keepTag)) then
    Ok (ParseState (set_Decl f (Declaration item EmptyString [] EmptyString)) (ps_alias st))
  else if reDecl_MatchString item then
    bind (parseDecl item) (fun d =>
    Ok (ParseState (set_Keep (set_Decl f d) true) (ps_alias st)))
  else if reDirective_MatchString item then
    bind (parseDirective item) (fun dir =>
    if decide (dir_Type dir = directiveAlias)
    then Ok (ParseState f (dir_Template dir))
    else Ok (ParseState (set_Directives f (f_Directives f ++ [dir])) (ps_alias st)))
  else if decide (item = keepTag) then
    Ok (ParseState (set_Keep f true) (ps_alias st))
  else Err (ErrParseTag tag).

Fixpoint parseTag_loop (tag : string) (items : list string) (st : parseState)
  : result parseState :=
  match items with
  | [] => Ok st
  | item :: rest => bind (parseTag_item tag st item) (parseTag_loop tag rest)
  end.

(** parseTag parses the value of a struct tag into various declarations
    and directives. *)
Definition parseTag (tag : string) : result field :=
  bind (parseTag_loop tag (splitTag tag) (ParseState field_zero EmptyString)) (fun st =>
  let f := set_Decl (ps_f st) (set_Alias (f_Decl (ps_f st)) (ps_alias st)) in
  let f := set_Directives f (sort_directives (f_Directives f)) in
  match f_Directives f with
  | [] => Ok f
  | d0 :: rest => bind (check_duplicates d0 rest) (fun _ => Ok f)
  end).
End Parse.

(* ===================================================================== *)
(** ** Package reflect: the types the walker inspects *)
(* ===================================================================== *)

(** A field of a struct type, as [reflect.StructField] gives it.  [sf_Tag]
    is the value of the tag under the key [structTag] ([Tag.Get(structTag)]);
    [sf_PkgPath] is empty for an exported field. *)
Record StructField (T : Type) := mkStructField {
  sf_Name : string;
  sf_PkgPath : string;
  sf_Tag : string;
  sf_Type : T
}.
Arguments mkStructField {T}.
Arguments sf_Name {T}.
Arguments sf_PkgPath {T}.
Arguments sf_Tag {T}.
Arguments sf_Type {T}.

(** A [reflect.Type].  [TOther kind name] is a type of any kind the walker
    treats as a leaf (bool, int, string, map, chan, func, interface, ...). *)
#[warnings="-register-all"]
Inductive rtype :=
| TStruct (name : string) (fields : list (StructField rtype))
| TPtr (elem : rtype)
| TSlice (elem : rtype)
| TArray (name : string) (elem : rtype)
| TOther (kind : string) (name : string).

Inductive Kind := KStruct | KPtr | KSlice | KArray | KOther (kind : string).

Definition rtype_Kind (t : rtype) : Kind :=
  match t with
  | TStruct _ _ => KStruct
  | TPtr _ => KPtr
  | TSlice _ => KSlice
  | TArray _ _ => KArray
  | TOther k _ => KOther k
  end.

Definition Kind_String (k : Kind) : string :=
  match k with
  | KStruct => "struct"
  | KPtr => "ptr"
  | KSlice => "slice"
  | KArray => "array"
  | KOther s => s
  end.

(** [Type.Name()]: pointer and slice types are taken to be unnamed. *)
Definition rtype_Name (t : rtype) : string :=
  match t with
  | TStruct n _ => n
  | TArray n _ => n
  | TOther _ n => n
  | TPtr _ | TSlice _ => EmptyString
  end.

Fixpoint rtype_size (t : rtype) : nat :=
  match t with
  | TStruct _ fs => S (list_sum (map (fun sf => rtype_size (sf_Type sf)) fs))
  | TPtr e | TSlice e | TArray _ e => S (rtype_size e)
  | TOther _ _ => 1
  end.

(** structTag is the name of the struct tag of this package. *)
Definition structTag : string := "goql".

(** node represents any given struct type or its fields. *)
Record node := Node {
  n_Name : string;
  n_Type : rtype;
  n_Tag : string
}.

(** deref dereferences a type if it is a pointer, double pointer, etc. *)
Fixpoint deref (t : rtype) : rtype :=
  match t with
  | TPtr e | TSlice e => deref e
  | _ => t
  end.

(** structNode ensures a given type is a struct type and resolves it to a
    node.  [s] is the dynamic type of the value passed in. *)
Definition structNode (s : rtype) : result node :=
  let st := deref s in
  match rtype_Kind st with
  | KStruct => Ok (Node (rtype_Name st) st EmptyString)
  | k => Err (ErrNotStruct (Kind_String k))
  end.

(** listFields resolves all fields of a struct type into nodes: unexported
    fields and fields tagged "-" are skipped. *)
Definition listFields (st : rtype) : list node :=
  match st with
  | TStruct _ fs =>
      omap (fun sf =>
              if decide (sf_PkgPath sf <> EmptyString) then None
              else if decide (sf_Tag sf = "-") then None
              else Some (Node (sf_Name sf) (deref (sf_Type sf)) (sf_Tag sf))) fs
  | _ => []
  end.

Section Walk.
(** The state the visit function closes over, and the function: it is
    called with [Some n] on entering a node and with [None] on leaving. *)
Context {S : Type}.
Definition visit := option node -> S -> S * option error.
Context (visitFn : visit).

(** The loop over the fields of a struct: the first error ends it. *)
Definition walk_each (g : node -> S -> S * option error)
  : list node -> S -> S * option error :=
  fix each (l : list node) (st : S) : S * option error :=
    match l with
    | [] => (st, None)
    | child :: rest =>
        match g child st with
        | (st, Some e) => (st, Some e)
        | (st, None) => each rest st
        end
    end.

(** walker performs the visit function on the node and each of its
    children, recursively.  The deferred call [visitFn(nil)] runs on every
    return after the first visit succeeded.  [fuel] bounds the depth of the
    recursion. *)
Fixpoint walker (fuel : nat) (n : node) (st : S) : S * option error :=
  match fuel with
  | O => (st, Some (Panic "recursion bound"))
  | Datatypes.S fuel' =>
      match visitFn (Some n) st with
      | (st, Some e) => (st, Some e)
      | (st, None) =>
          let '(st, r) :=
            match n_Type n with
            | TStruct _ _ => walk_each (walker fuel') (listFields (n_Type n)) st
            | TSlice e | TArray _ e | TPtr e =>
                let t := deref e in
                match rtype_Kind t with
                | KStruct => walk_each (walker fuel') (listFields t) st
                | _ => walker fuel' (Node (rtype_Name t) t EmptyString) st
                end
            | TOther _ _ => (st, None)
            end in
          ((visitFn None st).1, r)
      end
  end.

(** walk takes a struct type and walks through the entire type performing
    the visit function on each field. *)
Definition walk (s : rtype) (st : S) : S * option error :=
  match structNode s with
  | Err e => (st, Some e)
  | Ok n => walker (rtype_size (n_Type n)) n st
  end.
End Walk.

(* ===================================================================== *)
(** ** query.go: marshal and the cache *)
(* ===================================================================== *)

#[global] Instance StructField_eq_dec {T} `{EqDecision T} : EqDecision (StructField T).
Proof. solve_decision. Defined.

Fixpoint rtype_eq_dec (a b : rtype) {struct a} : {a = b} + {a <> b}.
Proof.
  refine
    (match a, b with
     | TStruct n1 fs1, TStruct n2 fs2 =>
         cast_if_and (decide (n1 = n2))
           (@list_eq_dec _ (@StructField_eq_dec _ rtype_eq_dec) fs1 fs2)
     | TPtr e1, TPtr e2 => cast_if (rtype_eq_dec e1 e2)
     | TSlice e1, TSlice e2 => cast_if (rtype_eq_dec e1 e2)
     | TArray n1 e1, TArray n2 e2 =>
         cast_if_and (decide (n1 = n2)) (rtype_eq_dec e1 e2)
     | TOther k1 n1, TOther k2 n2 =>
         cast_if_and (decide (k1 = k2)) (decide (n1 = n2))
     | _, _ => right _
     end); congruence.
Defined.

#[global] Instance rtype_EqDecision : EqDecision rtype := rtype_eq_dec.

(** cache stores the resulting tree of types which have already been through
    the marshaling process (a sync.Map keyed by [reflect.Type]). *)
Definition cache := list (rtype * field).

Definition cache_Load (c : cache) (rt : rtype) : option field :=
  snd <$> find (fun e => bool_decide (e.1 = rt)) c.

Definition cache_Store (c : cache) (rt : rtype) (operation : field) : cache :=
  (rt, operation) :: filter (fun e => e.1 <> rt) c.

Section Marshal.
Context (U : unicodeTables).

(** The visit function of marshal: it manages the stack while the walk goes
    through the root node and all of its children. *)
Definition visitFn (n : option node) (st : stack) : stack * option error :=
  match n with
  | Some n =>
      match parseTag U (n_Tag n) with
      | Err e => (st, Some e)
      | Ok f =>
          let f := if decide (d_Name (f_Decl f) = EmptyString)
                   then set_Decl f (set_Name (f_Decl f) (toLowerCamelCase U (n_Name n)))
                   else f in
          (push st f, None)
      end
  | None =>
      (* don't pop the root node *)
      if decide (stack_length st = 1%nat) then (st, None)
      else
        (* add most recent node to parent *)
        match pop st with
        | Err e => (st, Some e)
        | Ok (nf, st) => (apply st (fun f => set_Fields f (f_Fields f ++ [nf])), None)
        end
  end.

(** The tree of the operation: taken from the cache, or built by walking
    through the type and then stored in the cache. *)
Definition operation_of (q : rtype) (c : cache) : result field * cache :=
  let rt := q in
  match cache_Load c rt with
  | Some cachedOperation => (Ok cachedOperation, c)
  | None =>
      match walk visitFn q (Stack []) with
      | (_, Some e) => (Err e, c)
      | (st, None) =>
          match top st with
          | Err e => (Err e, c)
          | Ok operation => (Ok operation, cache_Store c rt operation)
          end
      end
  end.

(** marshal constructs a GraphQL operation from the type of [q].  [ro] is
    the order in which this call ranges over the map of arguments; the
    cache is passed in and returned. *)
Definition marshal (ro : rangeOrder) (q : rtype) (wrapper : string) (fields : Fields)
    (c : cache) : result string * cache :=
  match operation_of q c with
  | (Err e, c) => (Err e, c)
  | (Ok operation, c) =>
      match argsFromTokens ro (tokens operation) with
      | Err e => (Err e, c)
      | Ok args =>
          let declName :=
            if decide (0 < length args)%nat
            then wrapper +:+ "(" +:+ Join args ", " +:+ ")"
            else wrapper in
          match tokenizeAsRoot operation declName fields EmptyString with
          | (_, Err e) => (Err e, c)
          | (b, Ok _) => (Ok b, c)
          end
      end
  end.

Definition MarshalQuery (ro : rangeOrder) (q : rtype) (fields : Fields) (c : cache) :=
  marshal ro q "query" fields c.

Definition MarshalMutation (ro : rangeOrder) (q : rtype) (fields : Fields) (c : cache) :=
  marshal ro q "mutation" fields c.
End Marshal.

(* ===================================================================== *)
(** ** Reference definitions the properties are stated against *)
(* ===================================================================== *)

(** A splitter that tracks the nesting depth of parentheses, as the
    documentation of the tag grammar words it: an opening parenthesis goes
    one level down, a closing one comes back up, and only a comma at depth
    zero separates clauses. *)
Record depthState := DepthState {
  ds_sb : string;
  ds_split : list string;
  ds_depth : nat
}.

Definition lparen : rune := 40.
Definition rparen : rune := 41.

Definition splitTagDepth_step (st : depthState) (r : rune) : depthState :=
  let depth := if r =? lparen then S (ds_depth st)
               else if r =? rparen then Nat.pred (ds_depth st)
               else ds_depth st in
  if (r =? comma) && Nat.eqb depth 0
  then DepthState EmptyString (ds_split st ++ [ds_sb st]) depth
  else DepthState (WriteRune (ds_sb st) r) (ds_split st) depth.

Definition splitTagDepth (tag : string) : list string :=
  let st := fold_left splitTagDepth_step (range_string tag) (DepthState EmptyString [] 0) in
  ds_split st ++ [ds_sb st].

(** The parentheses of the runes are not nested: every opening parenthesis
    is met outside parentheses and every closing one inside. *)
Fixpoint flat_parens (inside : bool) (rs : list rune) : bool :=
  match rs with
  | [] => true
  | r :: t =>
      if r =? lparen then negb inside && flat_parens true t
      else if r =? rparen then inside && flat_parens false t
      else flat_parens inside t
  end.

(** Lower camel case as the documentation of the naming rule words it, on
    the runes of the name: the first character lowercased; every run of
    separators (white space, hyphen, underscore, period) dropped and the
    character after it uppercased; every other character unchanged; and the
    table of special strings in front of the rule. *)
Section CamelSpec.
Context (U : unicodeTables).

Definition is_separator (r : rune) : bool :=
  IsSpace U r || ContainsRune "-_." r.

Fixpoint camel_tail (rs : list rune) : list rune :=
  match rs with
  | [] => []
  | r :: t => if is_separator r then camel_after_run t else r :: camel_tail t
  end
with camel_after_run (rs : list rune) : list rune :=
  match rs with
  | [] => []
  | r :: t => if is_separator r then camel_after_run t else ToUpper U r :: camel_tail t
  end.

Definition lowerCamel_spec (s : string) : string :=
  match specialStrings !! s with
  | Some out => out
  | None =>
      match range_string s with
      | [] => EmptyString
      | r0 :: rest => str (flat_map EncodeRune (ToLower U r0 :: camel_tail rest))
      end
  end.

(** No letter of the tables is white space. *)
Definition letters_not_space : Prop :=
  forall r, Letter_excludingLatin U r = true -> White_Space_excludingLatin U r = false.
End CamelSpec.

(** The tables cut down to Latin-1, to run the definitions on examples:
    the case mappings of Latin-1, and no letter or white space beyond it. *)
Definition latin1Tables : unicodeTables :=
  UnicodeTables
    (fun r => if between 0xC0 0xDE r && negb (r =? 0xD7) then r + 32 else r)
    (fun r => if between 0xE0 0xFE r && negb (r =? 0xF7) then r - 32
              else if r =? 0xFF then 0x178
              else if r =? 0xB5 then 0x39C
              else r)
    (fun _ => false)
    (fun _ => false).

(** A field name that begins with a non-ASCII capital: "Éa" in UTF-8. *)
Definition E_acute_a : string := str [0xC3; 0x89; 0x61].

(** The body of the loop of [Union_val]. *)
Definition Union_step (k : string) (v : ifc) (acc : result Fields) : result Fields :=
  bind acc (fun x =>
    match index x k with
    | None => assign x k v
    | Some (IFields xInner) =>
        match v with
        | IFields _ => bind (Union_val v xInner) (fun u => assign x k (IFields u))
        | _ => Ok x
        end
    | Some _ => assign x k v
    end).

(** What the union of two values holds under one key, given what the two
    values hold under it: the loop body read per key. *)
Definition Union_entry (vx vy : option ifc) : result (option ifc) :=
  match vy with
  | None => Ok vx
  | Some v =>
      match vx with
      | None => Ok (Some v)
      | Some (IFields xInner) =>
          match v with
          | IFields yInner => bind (Union_pure xInner yInner) (fun u => Ok (Some (IFields u)))
          | _ => Ok vx
          end
      | Some _ => Ok (Some v)
      end
  end.

Definition is_IFields (v : ifc) : bool :=
  match v with IFields _ => true | _ => false end.

(** Two fieldsets and their union, to run the definitions on. *)
Definition fields_A : gmap string ifc :=
  {[ "foo" := IBool true; "baz" := IFields (Some {[ "a" := IBool true ]});
     "name" := IBool true ]}.
Definition fields_B : gmap string ifc :=
  {[ "foo" := IOther 7; "bar" := IBool true;
     "baz" := IFields (Some {[ "b" := IBool true ]}) ]}.
Definition fields_AB : gmap string ifc :=
  {[ "foo" := IOther 7; "bar" := IBool true; "name" := IBool true;
     "baz" := IFields (Some {[ "a" := IBool true; "b" := IBool true ]}) ]}.

(** The keys in the order of the list. *)
Definition keys_listed : keyOrder :=
  KeyOrder (fun _ l => l) (fun _ l => Permutation_refl l).
Definition keys_reversed : keyOrder :=
  KeyOrder (fun _ l => rev l) (fun _ l => Permutation_sym (Permutation_rev l)).

(** [fields_A] and [fields_B] in memory, as trees: [fields_A] at the
    address 1 with its nested map at 2, [fields_B] at 3 with its nested map
    at 4. *)
Definition heap_AB : heap :=
  {[ 1%positive := {[ "foo" := HBool true; "baz" := HFields (Some 2%positive);
                      "name" := HBool true ]};
     2%positive := {[ "a" := HBool true ]};
     3%positive := {[ "foo" := HOther 7; "bar" := HBool true;
                      "baz" := HFields (Some 4%positive) ]};
     4%positive := {[ "b" := HBool true ]} ]}.

(** Two maps with scalars of different types under one key. *)
Definition heap_scalars : heap :=
  {[ 1%positive := {[ "k" := HBool true ]};
     2%positive := {[ "k" := HOther 7 ]} ]}.

(** A = {k: nil Fields} at 1 and B = {k: {a: true}} at 2. *)
Definition heap_nil_nested : heap :=
  {[ 1%positive := {[ "k" := HFields None ]};
     2%positive := {[ "k" := HFields (Some 3%positive) ]};
     3%positive := {[ "a" := HBool true ]} ]}.

(** A = {parent: F} at 1 and B = {parent: {name: true}, child: F} at 2,
    where F = {id: true} is one and the same map, at 3. *)
Definition heap_shared : heap :=
  {[ 1%positive := {[ "parent" := HFields (Some 3%positive) ]};
     2%positive := {[ "parent" := HFields (Some 4%positive);
                      "child" := HFields (Some 3%positive) ]};
     3%positive := {[ "id" := HBool true ]};
     4%positive := {[ "name" := HBool true ]} ]}.

(** A = {a: B} at 1, with B = {a: {b: true}} at 2: the loop over B writes
    into B. *)
Definition heap_grows : heap :=
  {[ 1%positive := {[ "a" := HFields (Some 2%positive) ]};
     2%positive := {[ "a" := HFields (Some 3%positive) ]};
     3%positive := {[ "b" := HBool true ]} ]}.

(** What Union does to arguments laid out as trees that share no map: the
    outcome of [Union_pure] on their values, written into the first
    argument; no map outside the first argument is written. *)
Definition Union_spec (fuel : nat) (ko : keyOrder) (x y : option addr) (h : heap)
    (a b : Fields) (Fx Fy : gset addr) : Prop :=
  match Union_pure a b with
  | Ok u =>
      exists h', Union fuel ko x y h = Some (Ok (x, h'))
                 /\ tree h' (HFields x) (IFields u) (Fx ∪ Fy)
                 /\ forall p, p ∉ Fx -> h' !! p = h !! p
  | Err e => Union fuel ko x y h = Some (Err e)
  end.

(** The state of the loop of Union once the keys [done] are visited: the
    map at [px] holds [m1], which is [am] with the entries of the visited
    keys merged. *)
Definition Union_inv (h0 : heap) (px : addr) (am bm : gmap string ifc)
    (fpx fpy : string -> gset addr) (Fx : gset addr)
    (done : gset string) (h1 : heap) (m1 : gmap string ifc) : Prop :=
  exists hm1, h1 !! px = Some hm1
    /\ dom hm1 = dom m1
    /\ (forall k hv v, hm1 !! k = Some hv -> m1 !! k = Some v ->
          tree h1 hv v (if decide (k ∈ done) then fpx k ∪ fpy k else fpx k))
    /\ (forall p, p ∉ Fx -> h1 !! p = h0 !! p)
    /\ (forall k, k ∉ done -> m1 !! k = am !! k)
    /\ (forall k, k ∈ done -> Union_entry (am !! k) (bm !! k) = Ok (m1 !! k)).

(** Rendering without a fieldset, as the documentation words it: every
    declared field is written, whatever its Keep flag.  [render_body] writes
    the directives and all children of a node, [render_all] a node with its
    declaration in front. *)
Fixpoint render_body (f : field) (w : string) : string :=
  let w := write_directives (f_Directives f) w in
  match f_Fields f with
  | [] => w
  | children =>
      fold_left (fun w child =>
                   render_body child (declaration_tokenize (f_Decl child) w) +:+ newline)
                children (w +:+ " {" +:+ newline) +:+ "}"
  end.

Definition render_all (f : field) (w : string) : string :=
  render_body f (declaration_tokenize (f_Decl f) w).

(* ===================================================================== *)
(** ** Sample types, trees and range orders *)
(* ===================================================================== *)

(** Two orders of ranging over a map: as listed, and reversed. *)
Definition range_listed : rangeOrder :=
  RangeOrder (fun l => l) (fun l => Permutation_refl l).
Definition range_reversed : rangeOrder :=
  RangeOrder (@rev _) (fun l => Permutation_sym (Permutation_rev l)).

Definition string_type : rtype := TOther "string" "string".

(** An exported struct field. *)
Definition exported (name tag : string) (t : rtype) : StructField rtype :=
  mkStructField name EmptyString tag t.

(** struct { TestQuery struct { FieldOne string; FieldTwo string } } *)
Definition type_simple : rtype :=
  TStruct EmptyString
    [exported "TestQuery" EmptyString
       (TStruct EmptyString
          [exported "FieldOne" EmptyString string_type;
           exported "FieldTwo" EmptyString string_type])].

(** A model with a plain leaf, a nested model, a kept nested model and a
    kept leaf:
    struct { TestQuery struct {
      FieldOne string
      Nested struct { A string }
      Kept   struct { B string } `goql:"keep"`
      Leaf   string              `goql:"keep"` } } *)
Definition type_nested : rtype :=
  TStruct EmptyString
    [exported "TestQuery" EmptyString
       (TStruct EmptyString
          [exported "FieldOne" EmptyString string_type;
           exported "Nested" EmptyString
             (TStruct EmptyString [exported "A" EmptyString string_type]);
           exported "Kept" "keep"
             (TStruct EmptyString [exported "B" EmptyString string_type]);
           exported "Leaf" "keep" string_type])].



(** A field node without arguments, alias or directives. *)
Definition plain (name : string) (keep : bool) (children : list field) : field :=
  Field (Declaration name EmptyString [] EmptyString) [] children keep.

(** The tree marshal builds for [type_nested]. *)
Definition tree_nested : field :=
  plain EmptyString false
    [plain "testQuery" false
       [plain "fieldOne" false [];
        plain "nested" false [plain "a" false []];
        plain "kept" true [plain "b" false []];
        plain "leaf" true []]].

(** The tree marshal builds for [type_simple]. *)
Definition tree_simple : field :=
  plain EmptyString false
    [plain "testQuery" false [plain "fieldOne" false []; plain "fieldTwo" false []]].

(** The clauses of a tag as parseTag reads them.  [clause_directive] is the
    name and argument of a clause that has the form of a directive;
    [directive_names] lists the names of those clauses of a tag, in order;
    [alias_arguments] the arguments of its alias clauses. *)
Section Clauses.
Context (U : unicodeTables).





End Clauses.






(** [subfield f g]: the node [g] is [f] or lies below it in the tree. *)
Inductive subfield : field -> field -> Prop :=
| sub_refl (f : field) : subfield f f
| sub_child (f c g : field) : c ∈ f_Fields f -> subfield c g -> subfield f g.

(** [tree_token f t]: [t] is a token of the tree [f], that is, a token of the
    declaration of one of its nodes, or the token (when it has one) of a
    directive of one of its nodes. *)
Definition tree_token (f : field) (t : token) : Prop :=
  exists g, subfield f g
            /\ (t ∈ d_Tokens (f_Decl g)
                \/ (t <> token_zero /\ exists d, d ∈ f_Directives g /\ dir_Token d = t)).

(* ===================================================================== *)
(** * Properties *)
(* ===================================================================== *)

(** ** splitTag *)

Lemma ContainsRune_parens r :
  ContainsRune "()" r = (r =? lparen) || (r =? rparen).
Proof.
  unfold ContainsRune.
  change (range_string "()") with [lparen; rparen].
  simpl. by rewrite orb_false_r.
Qed.

(** The two splitters step alike while the in-parentheses flag and the
    depth agree. *)
Lemma split_steps_agree rs : forall sb sp inside,
  flat_parens inside rs = true ->
  let st := splitTag_loop rs (SplitState sb sp inside) in
  let dt := fold_left splitTagDepth_step rs (DepthState sb sp (if inside then 1 else 0)%nat) in
  ss_sb st = ds_sb dt /\ ss_split st = ds_split dt.
Proof.
  induction rs as [|r rs IH]; intros sb sp inside Hflat; [done|].
  cbn [flat_parens] in Hflat. cbn [splitTag_loop fold_left].
  unfold splitTag_step, splitTagDepth_step. cbn [ss_inArgs ss_sb ss_split ds_depth ds_sb ds_split].
  rewrite ContainsRune_parens.
  destruct (r =? lparen) eqn:Hl.
  - apply andb_true_iff in Hflat as [Hin Hflat]. apply negb_true_iff in Hin. subst inside.
    assert ((r =? comma) = false) as -> by (apply Z.eqb_eq in Hl; by subst r).
    cbn. apply (IH _ _ true Hflat).
  - destruct (r =? rparen) eqn:Hr.
    + apply andb_true_iff in Hflat as [Hin Hflat]. subst inside.
      assert ((r =? comma) = false) as -> by (apply Z.eqb_eq in Hr; by subst r).
      cbn. apply (IH _ _ false Hflat).
    + cbn [orb]. destruct inside; cbn.
      * rewrite andb_false_r. apply (IH _ _ true Hflat).
      * rewrite andb_true_r. destruct (r =? comma); apply (IH _ _ false Hflat).
Qed.

(** C6 (as amended).  splitTag keeps one flag that every parenthesis flips,
    and splits at the commas met while the flag is off.  On a tag whose
    parentheses are not nested this is the same as tracking the depth: the
    clauses are separated exactly by the commas at depth zero. *)
Theorem splitTag_flat_parens_depth (tag : string) :
  flat_parens false (range_string tag) = true ->
  splitTag tag = splitTagDepth tag.
Proof.
  intros Hflat. unfold splitTag, splitTagDepth.
  destruct (split_steps_agree _ EmptyString [] false Hflat) as [-> ->]. done.
Qed.

Lemma splitTag_flat_parens_depth_witness :
  flat_parens false (range_string "getUser(name:$name<String!>,age:$age<Int>),@alias(u), keep") = true
  /\ splitTag "getUser(name:$name<String!>,age:$age<Int>),@alias(u), keep"
     = ["getUser(name:$name<String!>,age:$age<Int>)"; "@alias(u)"; " keep"].
Proof.
  split; [vm_compute; reflexivity|].
  rewrite (splitTag_flat_parens_depth
             "getUser(name:$name<String!>,age:$age<Int>),@alias(u), keep");
    vm_compute; reflexivity.
Defined.

(** C6 (as stated) fails: inside doubled parentheses the flag is off again,
    and the comma at depth two separates two clauses. *)
Lemma splitTag_nested_parens_split :
  splitTag "f((a,b))" = ["f((a"; "b))"]
  /\ splitTagDepth "f((a,b))" = ["f((a,b))"].
Proof. split; vm_compute; reflexivity. Qed.

(** ** Bytes and strings *)

Lemma string_app_cons c (s t : string) : String c s +:+ t = String c (s +:+ t).
Proof. reflexivity. Qed.

Lemma str_app a b : str (a ++ b) = str a +:+ str b.
Proof.
  induction a as [|x a IH]; [done|].
  cbn [app str]. by rewrite string_app_cons, IH.
Qed.

Lemma string_app_nil_r (s : string) : s +:+ EmptyString = s.
Proof. induction s as [|c s IH]; [done|]. by rewrite string_app_cons, IH. Qed.

Lemma string_app_assoc (a b c : string) : (a +:+ b) +:+ c = a +:+ (b +:+ c).
Proof. induction a as [|x a IH]; [done|]. by rewrite !string_app_cons, IH. Qed.

Lemma byte_val_range a : 0 <= byte_val a < 256.
Proof.
  unfold byte_val. pose proof (N_ascii_bounded a) as H. lia.
Qed.

Lemma byte_chr_val a : byte_chr (byte_val a) = a.
Proof. unfold byte_chr, byte_val. rewrite N2Z.id. apply ascii_N_embedding. Qed.

Lemma str_bytes s : str (bytes s) = s.
Proof. induction s as [|a s IH]; cbn; [done|by rewrite byte_chr_val, IH]. Qed.

Lemma bytes_range s : Forall (fun b => 0 <= b < 256) (bytes s).
Proof. induction s; cbn; constructor; auto using byte_val_range. Qed.

Lemma EncodeRune_ascii r : 0 <= r < 128 -> EncodeRune r = [r].
Proof.
  intros H. unfold EncodeRune, between.
  replace (0 <=? r) with true by (symmetry; apply Z.leb_le; lia).
  replace (r <=? 127) with true by (symmetry; apply Z.leb_le; lia). done.
Qed.

(** ** toLowerCamelCase *)

(** The loop of toLowerCamelCase computes the documented rule on the runes
    it is given. *)
Lemma camel_loop_spec U (HU : letters_not_space U) rs : forall sb cap,
  cs_sb (fold_left (camel_step U) rs (CamelState sb cap))
  = sb +:+ str (flat_map EncodeRune
                  (if cap then camel_after_run U rs else camel_tail U rs)).
Proof.
  assert (Hsep : forall r, negb (IsLetter U r) && (IsSpace U r || ContainsRune "-_." r)
                           = is_separator U r).
  { intros r. unfold is_separator.
    destruct (IsSpace U r || ContainsRune "-_." r) eqn:Hs; [|by rewrite andb_false_r].
    rewrite andb_true_r. apply negb_true_iff.
    unfold IsLetter, IsSpace in *.
    destruct (between 0 MaxLatin1 r) eqn:Hb.
    - unfold ContainsRune in Hs. change (range_string "-_.") with [45; 95; 46] in Hs.
      cbn [existsb] in Hs. unfold latin1_letter, latin1_space, between in *.
      unfold MaxLatin1 in Hb. lia.
    - unfold ContainsRune in Hs. change (range_string "-_.") with [45; 95; 46] in Hs.
      cbn [existsb] in Hs. unfold between, MaxLatin1 in Hb.
      destruct (Letter_excludingLatin U r) eqn:Hl; [|done].
      rewrite (HU r Hl) in Hs. lia. }
  induction rs as [|r rs IH]; intros sb cap.
  - destruct cap; cbn [fold_left cs_sb camel_after_run camel_tail flat_map str];
      by rewrite string_app_nil_r.
  - cbn [fold_left]. unfold camel_step at 2. rewrite Hsep. cbn [cs_sb cs_capNextRune].
    destruct cap; cbn [camel_after_run camel_tail]; destruct (is_separator U r).
    + apply IH.
    + rewrite IH. unfold WriteRune. cbn [flat_map]. by rewrite str_app, string_app_assoc.
    + apply IH.
    + rewrite IH. unfold WriteRune. cbn [flat_map]. by rewrite str_app, string_app_assoc.
Qed.

(** On every name that begins with an ASCII character toLowerCamelCase is
    the documented rule. *)
Theorem toLowerCamelCase_ascii_head U (s : string) :
  letters_not_space U ->
  (forall b rest, bytes s = b :: rest -> b < RuneSelf) ->
  toLowerCamelCase U s = lowerCamel_spec U s.
Proof.
  intros HU Hhead. unfold toLowerCamelCase, lowerCamel_spec, range_string.
  destruct (bytes s) as [|b rest] eqn:Hb.
  - destruct (specialStrings !! s) eqn:Hs; [|by destruct s].
    destruct s; [|done]. vm_compute in Hs. done.
  - destruct (specialStrings !! s); [done|].
    specialize (Hhead b rest eq_refl).
    cbn [range_bytes DecodeRune]. apply Z.ltb_lt in Hhead as Hlt. rewrite Hlt.
    cbn [Nat.pred]. rewrite camel_loop_spec by done.
    unfold WriteRune. cbn [flat_map]. by rewrite str_app.
Qed.

(** C9.  toLowerCamelCase lowercases the first byte of the name as if it
    were its first character.  On the name [E_acute_a] (E acute, a) the byte
    0xC3 becomes the character a-tilde, the continuation byte left behind
    decodes to the replacement character, and the result is not the name
    with its first character lowercased (e acute, a). *)
Theorem toLowerCamelCase_non_ascii_head (U : unicodeTables) :
  To_LowerCase U 0xC3 = 0xE3 -> To_LowerCase U 0xC9 = 0xE9 ->
  Letter_excludingLatin U RuneError = false ->
  White_Space_excludingLatin U RuneError = false ->
  toLowerCamelCase U E_acute_a = str [0xC3; 0xA3; 0xEF; 0xBF; 0xBD; 0x61]
  /\ lowerCamel_spec U E_acute_a = str [0xC3; 0xA9; 0x61].
Proof.
  intros H1 H2 H3 H4. split.
  - unfold toLowerCamelCase.
    change (bytes E_acute_a) with [0xC3; 0x89; 0x61].
    replace (specialStrings !! E_acute_a) with (@None string) by (vm_compute; reflexivity).
    change (range_bytes 0 [137; 97]) with [RuneError; 97].
    cbn [fold_left]. unfold camel_step, IsLetter, IsSpace, ToLower, ToUpper.
    change (between 0 MaxLatin1 RuneError) with false.
    change (between 0 MaxLatin1 97) with true.
    change (195 <=? MaxASCII) with false.
    cbv iota. rewrite H1, H3, H4. vm_compute. reflexivity.
  - unfold lowerCamel_spec.
    replace (specialStrings !! E_acute_a) with (@None string) by (vm_compute; reflexivity).
    change (range_string E_acute_a) with [0xC9; 97].
    cbn [camel_tail]. unfold is_separator, IsSpace, ToLower.
    change (between 0 MaxLatin1 97) with true.
    change (201 <=? MaxASCII) with false.
    cbv iota. rewrite H2. vm_compute. reflexivity.
Qed.

Lemma toLowerCamelCase_non_ascii_head_witness :
  toLowerCamelCase latin1Tables E_acute_a = str [0xC3; 0xA3; 0xEF; 0xBF; 0xBD; 0x61]
  /\ lowerCamel_spec latin1Tables E_acute_a = str [0xC3; 0xA9; 0x61].
Proof. apply (toLowerCamelCase_non_ascii_head latin1Tables); reflexivity. Defined.

Lemma toLowerCamelCase_ascii_head_witness :
  toLowerCamelCase latin1Tables "lower_camel case-this.ID"
  = lowerCamel_spec latin1Tables "lower_camel case-this.ID"
  /\ toLowerCamelCase latin1Tables "lower_camel case-this.ID" = "lowerCamelCaseThisID".
Proof.
  split; [|vm_compute; reflexivity].
  apply (toLowerCamelCase_ascii_head latin1Tables).
  - intros r H. discriminate H.
  - intros b rest H. vm_compute in H. injection H as <- _. reflexivity.
Defined.

(** ** argsFromTokens *)

Lemma argsMap_loop_ok toks : forall m0 m,
  argsMap_loop toks m0 = Ok m ->
  m0 ⊆ m
  /\ (forall t, t ∈ toks -> m !! t_Arg t = Some (t_Kind t))
  /\ (forall a k, m !! a = Some k ->
        m0 !! a = Some k \/ exists t, t ∈ toks /\ t_Arg t = a /\ t_Kind t = k).
Proof.
  induction toks as [|tok toks IH]; intros m0 m H; cbn in H.
  - injection H as <-. split; [done|]. split; [intros t Ht; by apply elem_of_nil in Ht|].
    intros a k Hk. by left.
  - destruct (m0 !! t_Arg tok) as [kind|] eqn:Hm0.
    + case_decide as Hk; [done|].
      destruct (IH _ _ H) as (Hsub & Hall & Hfrom).
      split; [done|]. split.
      * intros t [->|Ht]%elem_of_cons; [|by apply Hall].
        rewrite Hk. by eapply lookup_weaken.
      * intros a k Hak. destruct (Hfrom a k Hak) as [?|(t & Ht & ? & ?)]; [by left|].
        right. exists t. split; [by apply elem_of_cons; right|done].
    + destruct (IH _ _ H) as (Hsub & Hall & Hfrom).
      assert (m !! t_Arg tok = Some (t_Kind tok)) as Htok.
      { eapply lookup_weaken; [|exact Hsub]. apply lookup_insert_eq. }
      split; [|split].
      * etrans; [|exact Hsub]. by apply insert_subseteq.
      * intros t [->|Ht]%elem_of_cons; [done|by apply Hall].
      * intros a k Hak. destruct (Hfrom a k Hak) as [Hins|(t & Ht & ? & ?)].
        -- apply lookup_insert_Some in Hins as [[<- <-]|[_ ?]]; [|by left].
           right. exists tok. split; [apply elem_of_cons; by left|done].
        -- right. exists t. split; [by apply elem_of_cons; right|done].
Qed.

Lemma argsMap_loop_err toks : forall m0 e,
  argsMap_loop toks m0 = Err e ->
  exists t k, t ∈ toks /\ e = ErrConflictingType (t_Arg t) /\ k <> t_Kind t
    /\ (m0 !! t_Arg t = Some k
        \/ exists t', t' ∈ toks /\ t_Arg t' = t_Arg t /\ t_Kind t' = k).
Proof.
  induction toks as [|tok toks IH]; intros m0 e H; cbn in H; [done|].
  destruct (m0 !! t_Arg tok) as [kind|] eqn:Hm0.
  - case_decide as Hk.
    + injection H as <-. exists tok, kind. split; [apply elem_of_cons; by left|].
      split; [done|]. split; [congruence|by left].
    + destruct (IH _ _ H) as (t & k & Ht & -> & Hne & Hsrc).
      exists t, k. split; [by apply elem_of_cons; right|]. split; [done|]. split; [done|].
      destruct Hsrc as [?|(t' & Ht' & ? & ?)]; [by left|].
      right. exists t'. split; [by apply elem_of_cons; right|done].
  - destruct (IH _ _ H) as (t & k & Ht & -> & Hne & Hsrc).
    exists t, k. split; [by apply elem_of_cons; right|]. split; [done|]. split; [done|].
    destruct Hsrc as [Hins|(t' & Ht' & ? & ?)].
    + apply lookup_insert_Some in Hins as [[Harg <-]|[_ Hold]]; [|by left].
      right. exists tok. split; [apply elem_of_cons; by left|done].
    + right. exists t'. split; [by apply elem_of_cons; right|done].
Qed.

(** The only error of argsFromTokens is the conflict of two tokens that
    share the variable and differ in the type, and it names the variable. *)
Lemma argsFromTokens_error (ro : rangeOrder) (toks : list token) (e : error) :
  argsFromTokens ro toks = Err e ->
  exists t1 t2, t1 ∈ toks /\ t2 ∈ toks /\ t_Arg t1 = t_Arg t2
                /\ t_Kind t1 <> t_Kind t2 /\ e = ErrConflictingType (t_Arg t1).
Proof.
  intros H. unfold argsFromTokens in H.
  destruct (argsMap_loop toks ∅) as [m|e'] eqn:Hloop; cbn in H; [done|].
  injection H as ->.
  destruct (argsMap_loop_err _ _ _ Hloop) as (t & k & Ht & -> & Hne & [Hm0|(t' & Ht' & Ha & Hk)]).
  - by rewrite lookup_empty in Hm0.
  - exists t, t'. repeat split; try done. congruence.
Qed.

(** argsFromTokens on any tokens: it fails exactly when two of the tokens
    share the variable name and differ in the type; when it succeeds, every
    variable of the tokens has one entry, in the order the map is ranged
    over. *)
Lemma argsFromTokens_spec (ro : rangeOrder) (toks : list token) :
  ((exists a, argsFromTokens ro toks = Err (ErrConflictingType a)) <->
   (exists t1 t2, t1 ∈ toks /\ t2 ∈ toks /\ t_Arg t1 = t_Arg t2 /\ t_Kind t1 <> t_Kind t2))
  /\ (forall e, argsFromTokens ro toks = Err e ->
        exists t1 t2, t1 ∈ toks /\ t2 ∈ toks /\ t_Arg t1 = t_Arg t2
                      /\ t_Kind t1 <> t_Kind t2 /\ e = ErrConflictingType (t_Arg t1))
  /\ (forall args, argsFromTokens ro toks = Ok args ->
        exists m : gmap string string,
          (forall a k, m !! a = Some k <-> exists t, t ∈ toks /\ t_Arg t = a /\ t_Kind t = k)
          /\ Permutation args (map arg_entry (map_to_list m))).
Proof.
  pose proof (argsFromTokens_error ro toks) as Herr.
  split; [split|split; [exact Herr|]].
  - intros [a Ha]. destruct (Herr _ Ha) as (t1 & t2 & ? & ? & ? & ? & _). by exists t1, t2.
  - intros (t1 & t2 & H1 & H2 & Ha & Hk). unfold argsFromTokens.
    destruct (argsMap_loop toks ∅) as [m|e] eqn:Hloop; cbn.
    + destruct (argsMap_loop_ok _ _ _ Hloop) as (_ & Hall & _).
      pose proof (Hall _ H1) as E1. pose proof (Hall _ H2) as E2.
      rewrite Ha in E1. congruence.
    + destruct (argsMap_loop_err _ _ _ Hloop) as (t & k & _ & -> & _). by eexists.
  - intros args H. unfold argsFromTokens in H.
    destruct (argsMap_loop toks ∅) as [m|e] eqn:Hloop; cbn in H; [|done].
    injection H as <-. exists m.
    destruct (argsMap_loop_ok _ _ _ Hloop) as (_ & Hall & Hfrom). split.
    + intros a k. split.
      * intros Hak. destruct (Hfrom a k Hak) as [Hm0|?]; [by rewrite lookup_empty in Hm0|done].
      * intros (t & Ht & <- & <-). by apply Hall.
    + apply Permutation_map, range_perm.
Qed.

(** ** Union of values *)

#[local] Arguments Union_val : simpl never.
#[local] Arguments Union_pure : simpl never.

Lemma Union_pure_unfold (x : Fields) (ym : gmap string ifc) :
  Union_pure x (Some ym) = map_fold Union_step (Ok x) ym.
Proof. reflexivity. Qed.

Lemma Union_pure_nil_r (x : Fields) : Union_pure x None = Ok x.
Proof. reflexivity. Qed.

(** Key by key, the union of two non-nil values is [Union_entry]. *)
Lemma Union_pure_entries (a b : gmap string ifc) :
  match Union_pure (Some a) (Some b) with
  | Ok u => exists um, u = Some um /\ forall k, Union_entry (a !! k) (b !! k) = Ok (um !! k)
  | Err e => exists k, Union_entry (a !! k) (b !! k) = Err e
  end.
Proof.
  rewrite Union_pure_unfold.
  apply (map_fold_weak_ind (fun (acc : result Fields) (m : gmap string ifc) =>
    match acc with
    | Ok u => exists um, u = Some um /\ forall k, Union_entry (a !! k) (m !! k) = Ok (um !! k)
    | Err e => exists k, Union_entry (a !! k) (m !! k) = Err e
    end)).
  - exists a. split; [done|]. intros k. by rewrite lookup_empty.
  - intros i v m acc Hi IH. destruct acc as [u|e]; cbn.
    + destruct IH as (um & -> & Hum). cbn.
      pose proof (Hum i) as Hi'. rewrite Hi in Hi'. cbn in Hi'. injection Hi' as Hi'.
      rewrite <- Hi'.
      assert (Hother : forall (w : ifc) k, k <> i ->
                Union_entry (a !! k) (<[i:=v]> m !! k) = Ok (<[i:=w]> um !! k)).
      { intros w k Hk. rewrite !lookup_insert_ne by done. apply Hum. }
      destruct (a !! i) as [vx|] eqn:Hai.
      * destruct vx as [bx|xInner|ox].
        -- cbn. exists (<[i:=v]> um). split; [done|]. intros k.
           destruct (decide (k = i)) as [->|Hk]; [|by apply Hother].
           rewrite !lookup_insert_eq, Hai. done.
        -- destruct v as [bv|yInner|ov].
           ++ exists um. split; [done|]. intros k.
              destruct (decide (k = i)) as [->|Hk].
              ** by rewrite lookup_insert_eq, Hai, <- Hi'.
              ** rewrite lookup_insert_ne by done. apply Hum.
           ++ destruct (Union_val (IFields yInner) xInner) as [r|e] eqn:Hr; cbn.
              ** exists (<[i:=IFields r]> um). split; [done|]. intros k.
                 destruct (decide (k = i)) as [->|Hk]; [|by apply Hother].
                 rewrite !lookup_insert_eq, Hai. cbn. unfold Union_pure. by rewrite Hr.
              ** exists i. rewrite lookup_insert_eq, Hai. cbn. unfold Union_pure. by rewrite Hr.
           ++ exists um. split; [done|]. intros k.
              destruct (decide (k = i)) as [->|Hk].
              ** by rewrite lookup_insert_eq, Hai, <- Hi'.
              ** rewrite lookup_insert_ne by done. apply Hum.
        -- cbn. exists (<[i:=v]> um). split; [done|]. intros k.
           destruct (decide (k = i)) as [->|Hk]; [|by apply Hother].
           rewrite !lookup_insert_eq, Hai. done.
      * cbn. exists (<[i:=v]> um). split; [done|]. intros k.
        destruct (decide (k = i)) as [->|Hk]; [|by apply Hother].
        rewrite !lookup_insert_eq, Hai. done.
    + destruct IH as (k & Hk). exists k.
      destruct (decide (k = i)) as [->|Hne]; [|by rewrite lookup_insert_ne].
      rewrite Hi in Hk. done.
Qed.

(** The union of two non-nil values fails only where the union of two
    nested Fields under a common key does. *)
Lemma Union_pure_fails (a b : gmap string ifc) (e : error) :
  Union_pure (Some a) (Some b) = Err e ->
  exists k xi yi, a !! k = Some (IFields xi) /\ b !! k = Some (IFields yi)
                  /\ Union_pure xi yi = Err e.
Proof.
  intros H. pose proof (Union_pure_entries a b) as HU. rewrite H in HU.
  destruct HU as (k & Hk). exists k. unfold Union_entry in Hk.
  destruct (b !! k) as [v|]; [|done].
  destruct (a !! k) as [[bx|xi|ox]|]; try done.
  destruct v as [bv|yi|ov]; try done.
  destruct (Union_pure xi yi) as [r|e'] eqn:Hr; cbn in Hk; [done|].
  exists xi, yi. repeat split. congruence.
Qed.

(** Ranging over a non-empty [y] assigns to an entry of [x]: the union
    fails on a nil [x], unless [y] is empty. *)
Lemma Union_pure_nil_l (b : gmap string ifc) :
  b <> ∅ -> Union_pure None (Some b) = Err (Panic "assignment to entry in nil map").
Proof.
  intros Hb. rewrite Union_pure_unfold.
  enough (H : (b = ∅ /\ map_fold Union_step (Ok None) b = Ok None)
              \/ map_fold Union_step (Ok None) b
                 = Err (Panic "assignment to entry in nil map")) by (by destruct H as [[? _]|]).
  apply (map_fold_weak_ind (fun (acc : result Fields) (m : gmap string ifc) =>
    (m = ∅ /\ acc = Ok None) \/ acc = Err (Panic "assignment to entry in nil map"))).
  - by left.
  - intros i v m acc Hi [[_ ->]| ->]; by right.
Qed.

(** ** Union in memory *)

Lemma ifc_size_lookup (m : gmap string ifc) k v :
  m !! k = Some v -> (ifc_size v < ifc_size (IFields (Some m)))%nat.
Proof.
  intros H. cbn [ifc_size]. rewrite <- (insert_delete_id m k v H).
  rewrite map_fold_insert_L; [lia|intros; lia|apply lookup_delete_eq].
Qed.

Lemma tree_mono h hv v F F' : tree h hv v F -> F ⊆ F' -> tree h hv v F'.
Proof.
  intros H HF. destruct H as [b F|v F|F|p hm m fp F Hp HpF Hdom Hch Hfp Hdisj];
    try constructor.
  eapply tree_map; eauto. intros k. specialize (Hfp k). set_solver.
Qed.

(** A tree depends on the maps of its footprint only. *)
Lemma tree_frame h h' hv v F :
  tree h hv v F -> (forall p, p ∈ F -> h' !! p = h !! p) -> tree h' hv v F.
Proof.
  intros H. induction H as [b F|v F|F|p hm m fp F Hp HpF Hdom Hch IH Hfp Hdisj];
    intros Hagree; try constructor.
  eapply tree_map; eauto.
  - by rewrite Hagree.
  - intros k hv v Hk Hm. apply (IH k hv v Hk Hm). intros q Hq. apply Hagree.
    specialize (Hfp k). set_solver.
Qed.

(** Union_pure fails with one error only, and only on arguments that
    clash. *)
Lemma Union_pure_error : forall (b a : Fields) e,
  Union_pure a b = Err e -> e = Panic "assignment to entry in nil map" /\ clash a b.
Proof.
  intros b. remember (ifc_size (IFields b)) as n eqn:Hn. revert b Hn.
  induction n as [n IH] using lt_wf_ind. intros [bm|] Hn a e H; [|done].
  destruct a as [am|].
  - destruct (Union_pure_fails am bm e H) as (k & xi & yi & Ha & Hb & Hrec).
    pose proof (ifc_size_lookup _ _ _ Hb) as Hsz. rewrite <- Hn in Hsz.
    destruct (IH _ Hsz yi eq_refl xi e Hrec) as [-> Hc]. split; [done|].
    by eapply clash_nested.
  - destruct (decide (bm = ∅)) as [->|Hne]; [done|].
    rewrite (Union_pure_nil_l bm Hne) in H. injection H as <-. split; [done|].
    by constructor.
Qed.

Lemma clash_Union_pure a b :
  clash a b -> Union_pure a b = Err (Panic "assignment to entry in nil map").
Proof.
  induction 1 as [b Hb|a b k xi yi Ha Hb Hc IH].
  - by apply Union_pure_nil_l.
  - pose proof (Union_pure_entries a b) as HU.
    destruct (Union_pure (Some a) (Some b)) as [u|e] eqn:HUab.
    + destruct HU as (um & -> & Hum). specialize (Hum k). rewrite Ha, Hb in Hum.
      unfold Union_entry in Hum. by rewrite IH in Hum.
    + by destruct (Union_pure_error _ _ _ HUab) as [-> _].
Qed.

Lemma tree_bool_inv h b v F : tree h (HBool b) v F -> v = IBool b.
Proof. by inversion 1. Qed.

Lemma tree_other_inv h o v F : tree h (HOther o) v F -> v = IOther o.
Proof. by inversion 1. Qed.

Lemma tree_fields_inv h p v F : tree h (HFields p) v F -> exists xi, v = IFields xi.
Proof. inversion 1; eauto. Qed.

Section Union_loop.
Variables (fuel : nat) (ko : keyOrder).
Variables (h0 : heap) (px py : addr) (am bm : gmap string ifc) (hmy : gmap string hval).
Variables (fpx fpy : string -> gset addr) (Fx Fy : gset addr).

Hypothesis IH : forall x y h a b Gx Gy,
  tree h (HFields x) (IFields a) Gx -> tree h (HFields y) (IFields b) Gy ->
  Gx ## Gy -> (ifc_size (IFields b) <= fuel)%nat ->
  Union_spec fuel ko x y h a b Gx Gy.
Hypothesis Hpx : px ∈ Fx.
Hypothesis Hfpx : forall k, fpx k ⊆ Fx ∖ {[px]}.
Hypothesis Hdx : forall k1 k2, k1 <> k2 -> fpx k1 ## fpx k2.
Hypothesis Hy : h0 !! py = Some hmy.
Hypothesis Hpy : py ∈ Fy.
Hypothesis Hdomy : dom hmy = dom bm.
Hypothesis Hych : forall k hv v, hmy !! k = Some hv -> bm !! k = Some v -> tree h0 hv v (fpy k).
Hypothesis Hfpy : forall k, fpy k ⊆ Fy ∖ {[py]}.
Hypothesis Hdy : forall k1 k2, k1 <> k2 -> fpy k1 ## fpy k2.
Hypothesis Hdisj : Fx ## Fy.
Hypothesis Hsize : forall k v, bm !! k = Some v -> (ifc_size v <= fuel)%nat.

Abbreviation inv := (Union_inv h0 px am bm fpx fpy Fx).

Lemma Union_inv_step (done : gset string) h1 m1 h' k hv v :
  inv done h1 m1 -> k ∉ done ->
  (forall p, p ∉ fpx k -> h' !! p = h1 !! p) ->
  tree h' hv v (fpx k ∪ fpy k) ->
  Union_entry (am !! k) (bm !! k) = Ok (Some v) ->
  inv ({[k]} ∪ done) (<[px := <[k := hv]> (map_at h' px)]> h') (<[k := v]> m1).
Proof.
  intros (hm1 & Hpx1 & Hdom1 & Hch1 & Hfr1 & Hnd & Hd) Hk Hfr Ht He.
  pose proof (Hfpx k) as Hfk. pose proof (Hfpy k) as Hfyk.
  assert (Hmap : map_at h' px = hm1).
  { unfold map_at. rewrite Hfr, Hpx1; [done|set_solver]. }
  rewrite Hmap. exists (<[k:=hv]> hm1). split; [by rewrite lookup_insert_eq|].
  split; [by rewrite !dom_insert_L, Hdom1|]. split; [|split; [|split]].
  - intros k' hv' v' H1 H2. destruct (decide (k' = k)) as [->|Hne].
    + rewrite lookup_insert_eq in H1. rewrite lookup_insert_eq in H2.
      injection H1 as <-. injection H2 as <-.
      rewrite decide_True by set_solver.
      apply (tree_frame h'); [done|]. intros p Hp.
      rewrite lookup_insert_ne; [done|]. set_solver.
    + rewrite lookup_insert_ne in H1 by done. rewrite lookup_insert_ne in H2 by done.
      pose proof (Hch1 k' hv' v' H1 H2) as Ht'.
      pose proof (Hfpx k') as Hfk'. pose proof (Hfpy k') as Hfyk'.
      pose proof (Hdx k' k Hne) as Hdk.
      assert (Hsame : (if decide (k' ∈ {[k]} ∪ done) then fpx k' ∪ fpy k' else fpx k')
                      = (if decide (k' ∈ done) then fpx k' ∪ fpy k' else fpx k')).
      { destruct (decide (k' ∈ done)); [rewrite decide_True|rewrite decide_False];
          set_solver. }
      rewrite Hsame. apply (tree_frame h1); [done|]. intros p Hp.
      assert (Hp' : p ∈ fpx k' ∪ fpy k') by (destruct (decide (k' ∈ done)); set_solver).
      rewrite lookup_insert_ne by set_solver. apply Hfr. set_solver.
  - intros p Hp. rewrite lookup_insert_ne by set_solver.
    rewrite Hfr by set_solver. by apply Hfr1.
  - intros k' Hk'. rewrite lookup_insert_ne by set_solver. apply Hnd. set_solver.
  - intros k' Hk'. destruct (decide (k' = k)) as [->|Hne].
    + by rewrite lookup_insert_eq.
    + rewrite lookup_insert_ne by done. apply Hd. set_solver.
Qed.

Lemma Union_inv_maps (done : gset string) h1 m1 :
  inv done h1 m1 -> map_at h1 py = hmy /\ px <> py.
Proof.
  intros (hm1 & Hpx1 & Hdom1 & Hch1 & Hfr1 & Hnd & Hd).
  assert (Hne : py ∉ Fx) by set_solver.
  split; [|set_solver]. unfold map_at. by rewrite (Hfr1 py Hne), Hy.
Qed.

(** One turn of the loop. *)
Lemma Union_body_step (done : gset string) h1 m1 k :
  inv done h1 m1 -> k ∈ dom bm -> k ∉ done ->
  match Union_body (Union fuel ko) (Some px) (Some py) k h1 with
  | Some (Ok h2) => exists m2, inv ({[k]} ∪ done) h2 m2
  | Some (Err e) => Union_entry (am !! k) (bm !! k) = Err e
  | None => False
  end.
Proof.
  intros Hinv Hkb Hk. destruct (Union_inv_maps _ _ _ Hinv) as [Hmy Hne].
  pose proof Hinv as (hm1 & Hpx1 & Hdom1 & Hch1 & Hfr1 & Hnd & Hd).
  assert (Hmx : map_at h1 px = hm1) by (unfold map_at; by rewrite Hpx1).
  apply elem_of_dom in Hkb as [v Hv].
  assert (Hkh : k ∈ dom hmy) by (rewrite Hdomy; apply elem_of_dom; eauto).
  apply elem_of_dom in Hkh as [hv Hhv].
  pose proof (Hfpx k) as Hfk. pose proof (Hfpy k) as Hfyk.
  assert (Hty : tree h1 hv v (fpy k)).
  { apply (tree_frame h0); [by eapply Hych|]. intros p Hp. apply Hfr1. set_solver. }
  assert (Hstore : Union_entry (am !! k) (bm !! k) = Ok (Some v) ->
            exists m2, inv ({[k]} ∪ done) (<[px := <[k := hv]> (map_at h1 px)]> h1) m2).
  { intros He. exists (<[k := v]> m1). apply (Union_inv_step done h1 m1 h1); try done.
    apply (tree_mono _ _ _ (fpy k)); [done|set_solver]. }
  unfold Union_body, heap_index. cbn [mbind option_bind]. rewrite Hmy, Hhv, Hmx.
  destruct (hm1 !! k) as [hvx|] eqn:Hx.
  - assert (Hkm : k ∈ dom m1) by (rewrite <- Hdom1; apply elem_of_dom; eauto).
    apply elem_of_dom in Hkm as [vx Hvx].
    pose proof (Hch1 k hvx vx Hx Hvx) as Htx. rewrite decide_False in Htx by done.
    pose proof (Hnd k Hk) as Ha. rewrite Hvx in Ha. symmetry in Ha.
    destruct hvx as [bx|xInner|ox].
    + rewrite (tree_bool_inv _ _ _ _ Htx) in Ha.
      cbn [heap_assign]. apply Hstore. by rewrite Ha, Hv.
    + destruct (tree_fields_inv _ _ _ _ Htx) as [xi ->].
      assert (Hkeep : Union_entry (am !! k) (bm !! k) = Ok (Some (IFields xi)) ->
                exists m2, inv ({[k]} ∪ done) h1 m2).
      { intros He. exists m1.
        pose proof (Union_inv_step done h1 m1 h1 k (HFields xInner) (IFields xi) Hinv Hk
                      (fun _ _ => eq_refl)
                      (tree_mono _ _ _ _ _ Htx (union_subseteq_l _ _)) He) as Hnew.
        by rewrite Hmx, (insert_id hm1 k _ Hx), (insert_id h1 px _ Hpx1),
          (insert_id m1 k _ Hvx) in Hnew. }
      destruct hv as [bv|yInner|ov].
      * rewrite (tree_bool_inv _ _ _ _ Hty) in Hv.
        apply Hkeep. by rewrite Ha, Hv.
      * destruct (tree_fields_inv _ _ _ _ Hty) as [yi ->].
        assert (Hsz : (ifc_size (IFields yi) <= fuel)%nat) by (by eapply Hsize).
        assert (Hdk : fpx k ## fpy k) by set_solver.
        pose proof (IH xInner yInner h1 xi yi (fpx k) (fpy k) Htx Hty Hdk Hsz) as Hrec.
        unfold Union_spec in Hrec.
        destruct (Union_pure xi yi) as [u|e] eqn:Hu.
        -- destruct Hrec as (h' & -> & Htu & Hfr). cbn [heap_assign].
           exists (<[k := IFields u]> m1). apply (Union_inv_step done h1 m1 h'); try done.
           rewrite Ha, Hv. unfold Union_entry. by rewrite Hu.
        -- rewrite Hrec, Ha, Hv. unfold Union_entry. by rewrite Hu.
      * rewrite (tree_other_inv _ _ _ _ Hty) in Hv.
        apply Hkeep. by rewrite Ha, Hv.
    + rewrite (tree_other_inv _ _ _ _ Htx) in Ha.
      cbn [heap_assign]. apply Hstore. by rewrite Ha, Hv.
  - assert (Ha : am !! k = None).
    { rewrite <- (Hnd k Hk). apply not_elem_of_dom. rewrite <- Hdom1.
      by apply not_elem_of_dom. }
    cbn [heap_assign]. apply Hstore. by rewrite Ha, Hv.
Qed.

(** The whole loop, over keys of [bm] not visited yet. *)
Lemma Union_loop_inv : forall ks (done : gset string) h1 m1,
  NoDup ks -> (forall k, k ∈ ks -> k ∈ dom bm /\ k ∉ done) ->
  inv done h1 m1 ->
  match Union_loop (Union_body (Union fuel ko) (Some px) (Some py)) py (dom hmy) ks h1 with
  | Some (Ok h2) => exists m2, inv (list_to_set ks ∪ done) h2 m2
  | Some (Err e) => exists k, Union_entry (am !! k) (bm !! k) = Err e
  | None => False
  end.
Proof.
  induction ks as [|k ks IHks]; intros done h1 m1 Hnd Hks Hinv; cbn [Union_loop].
  - exists m1. by rewrite list_to_set_nil, (left_id_L ∅ (∪)).
  - apply NoDup_cons in Hnd as [Hk Hnd].
    destruct (Hks k ltac:(left)) as [Hkb Hkd].
    pose proof (Union_body_step done h1 m1 k Hinv Hkb Hkd) as Hstep.
    destruct (Union_body (Union fuel ko) (Some px) (Some py) k h1) as [[h2|e]|];
      [|by exists k|done].
    destruct Hstep as (m2 & Hinv2).
    destruct (Union_inv_maps _ _ _ Hinv2) as [-> _].
    rewrite decide_True by done.
    assert (Hks2 : forall k', k' ∈ ks -> k' ∈ dom bm /\ k' ∉ {[k]} ∪ done).
    { intros k' Hk'. destruct (Hks k' ltac:(by right)) as [? ?]. split; [done|].
      intros [->%elem_of_singleton|?]%elem_of_union; done. }
    pose proof (IHks _ h2 m2 Hnd Hks2 Hinv2) as Hrest.
    destruct (Union_loop _ py (dom hmy) ks h2) as [[h3|e]|]; [|done|done].
    destruct Hrest as (m3 & Hinv3). exists m3.
    replace (list_to_set (k :: ks) ∪ done) with (list_to_set ks ∪ ({[k]} ∪ done)); [done|].
    rewrite list_to_set_cons, (comm_L (∪) {[k]} (list_to_set ks)).
    by rewrite <- (assoc_L (∪)).
Qed.
End Union_loop.

Lemma Union_entry_error vx vy e :
  Union_entry vx vy = Err e -> e = Panic "assignment to entry in nil map".
Proof.
  unfold Union_entry. destruct vy as [[bv|yi|ov]|], vx as [[bx|xi|ox]|]; try done.
  destruct (Union_pure xi yi) as [u|e'] eqn:Hu; [done|]. intros [= <-].
  by destruct (Union_pure_error _ _ _ Hu).
Qed.

(** Union on arguments laid out as trees that share no map, with fuel for
    the depth of the second: it returns, or panics, as [Union_pure] does on
    their values, and leaves the result in the first argument. *)
Lemma Union_refines (ko : keyOrder) : forall fuel x y h a b Fx Fy,
  tree h (HFields x) (IFields a) Fx -> tree h (HFields y) (IFields b) Fy ->
  Fx ## Fy -> (ifc_size (IFields b) <= fuel)%nat ->
  Union_spec fuel ko x y h a b Fx Fy.
Proof.
  induction fuel as [|fuel IH]; intros x y h a b Fx Fy Hx Hy Hdisj Hsz.
  { destruct b as [?|]; cbn in Hsz; lia. }
  unfold Union_spec.
  inversion Hy as [| |F|py hmy bm fpy F Hpy HpyF Hdomy Hych Hfpy Hdy]; subst.
  { rewrite Union_pure_nil_r. exists h. cbn. split; [done|]. split; [|done].
    eapply tree_mono; [done|]. apply union_subseteq_l. }
  inversion Hx as [| |F|px hmx am fpx F Hpx HpxF Hdomx Hxch Hfpx Hdx]; subst;
    (cbn [Union];
     assert (Hmy : map_at h py = hmy) by (unfold map_at; by rewrite Hpy);
     rewrite Hmy, Hdomy;
     pose proof (keys_perm ko py (elements (dom bm))) as Hperm;
     set (ks := keys_of ko py (elements (dom bm))) in *;
     assert (Hks : forall k, k ∈ ks <-> k ∈ dom bm)
       by (intros k; by rewrite Hperm, elem_of_elements)).
  - destruct (decide (bm = ∅)) as [->|Hne].
    + rewrite Union_pure_unfold, map_fold_empty.
      rewrite dom_empty_L, elements_empty in Hperm. apply Permutation_nil_r in Hperm.
      rewrite Hperm. cbn. exists h. split; [done|]. split; [constructor|done].
    + rewrite (Union_pure_nil_l bm Hne).
      destruct ks as [|k ks'] eqn:Eks.
      { exfalso. apply Hne. apply map_eq. intros k. rewrite lookup_empty.
        apply not_elem_of_dom. rewrite <- Hks. apply not_elem_of_nil. }
      assert (Hk : k ∈ dom hmy) by (rewrite Hdomy; apply Hks; left).
      apply elem_of_dom in Hk as [hv Hhv].
      cbn [Union_loop]. unfold Union_body, heap_index. cbn [mbind option_bind].
      by rewrite Hmy, Hhv.
  - assert (Hsize : forall k v, bm !! k = Some v -> (ifc_size v <= fuel)%nat).
    { intros k v Hk. apply ifc_size_lookup in Hk. lia. }
    assert (Hinv0 : Union_inv h px am bm fpx fpy Fx ∅ h am).
    { exists hmx. split; [done|]. split; [done|]. split; [|done].
      intros k hv v H1 H2. rewrite decide_False by apply not_elem_of_empty. eauto. }
    assert (Hnd : NoDup ks) by (rewrite Hperm; apply NoDup_elements).
    assert (Hks0 : forall k, k ∈ ks -> k ∈ dom bm /\ k ∉ (∅ : gset string)).
    { intros k Hk. split; [by apply Hks|apply not_elem_of_empty]. }
    pose proof (Union_loop_inv fuel ko h px py am bm hmy fpx fpy Fx Fy IH HpxF Hfpx Hdx
                  Hpy HpyF Hdomy Hych Hfpy Hdy Hdisj Hsize ks ∅ h am Hnd Hks0 Hinv0) as Hloop.
    rewrite Hdomy in Hloop.
    pose proof (Union_pure_entries am bm) as HU.
    destruct (Union_loop _ py (dom bm) ks h) as [[h2|e]|]; [| |done].
    + destruct Hloop as (m2 & hm2 & Hpx2 & Hdom2 & Hch2 & Hfr2 & Hnd2 & Hd2).
      assert (Hall : forall k, Union_entry (am !! k) (bm !! k) = Ok (m2 !! k)).
      { intros k. destruct (decide (k ∈ dom bm)) as [Hk|Hk].
        - apply Hd2. apply elem_of_union_l, elem_of_list_to_set, Hks, Hk.
        - rewrite Hnd2.
          + apply not_elem_of_dom in Hk. by rewrite Hk.
          + intros [Hin%elem_of_list_to_set%Hks|Hin%elem_of_empty]%elem_of_union; done. }
      destruct (Union_pure (Some am) (Some bm)) as [u|e].
      * destruct HU as (um & -> & Hum).
        assert (um = m2) as ->.
        { apply map_eq. intros k. specialize (Hum k). rewrite Hall in Hum. by injection Hum. }
        exists h2. split; [done|]. split; [|done].
        apply (tree_map h2 px hm2 m2
                 (fun k => if decide (k ∈ list_to_set ks ∪ (∅ : gset string))
                           then fpx k ∪ fpy k else fpx k)); try done.
        -- by apply elem_of_union_l.
        -- intros k. pose proof (Hfpx k). pose proof (Hfpy k).
           destruct (decide _); set_solver.
        -- intros k1 k2 Hne. pose proof (Hfpx k1). pose proof (Hfpy k1).
           pose proof (Hfpx k2). pose proof (Hfpy k2).
           pose proof (Hdx k1 k2 Hne). pose proof (Hdy k1 k2 Hne).
           destruct (decide _), (decide _); set_solver.
      * destruct HU as (k & Hk). by rewrite Hall in Hk.
    + destruct Hloop as (k & Hk).
      destruct (Union_pure (Some am) (Some bm)) as [u|e'] eqn:HUab.
      * destruct HU as (um & -> & Hum). specialize (Hum k). by rewrite Hk in Hum.
      * destruct (Union_pure_error _ _ _ HUab) as [-> _].
        by rewrite (Union_entry_error _ _ _ Hk).
Qed.

(** C7 (as amended).  Let A and B be Fields laid out in memory as trees
    that share no map, neither within themselves nor with one another ([a]
    and [b] are their values).  Union(A, B) panics, on the assignment to an
    entry of a nil map, exactly when A and B clash: A is nil and B has a
    key, at the top or under keys that both map to nested Fields.
    Otherwise it returns A itself, updated in place, and writes to no map
    outside A; the value [u] that A then holds is this: a key that only one
    of the two maps keeps its value; where both map the key to nested
    Fields, the result maps it to their union; where A maps it to a nested
    Fields and B to anything else, the nested Fields of A stays; and where
    A maps it to anything but a nested Fields, the value of B overwrites
    it - be it a nested Fields or a scalar.  Between two scalar leaves it
    is the second argument's value that takes precedence.  The order in
    which the loop visits the keys does not matter. *)
Theorem Union_entries (fuel : nat) (ko : keyOrder) (h : heap) (x y : option addr)
    (a b : Fields) (Fx Fy : gset addr) :
  tree h (HFields x) (IFields a) Fx ->
  tree h (HFields y) (IFields b) Fy ->
  Fx ## Fy ->
  (ifc_size (IFields b) <= fuel)%nat ->
  (clash a b ->
     Union fuel ko x y h = Some (Err (Panic "assignment to entry in nil map")))
  /\ (~ clash a b ->
      exists h' u,
        Union fuel ko x y h = Some (Ok (x, h'))
        /\ tree h' (HFields x) (IFields u) (Fx ∪ Fy)
        /\ (forall p, p ∉ Fx -> h' !! p = h !! p)
        /\ Union_pure a b = Ok u
        /\ forall k,
            (index b k = None -> index u k = index a k)
            /\ (index a k = None -> index u k = index b k)
            /\ (forall xi yi, index a k = Some (IFields xi) ->
                  index b k = Some (IFields yi) ->
                  exists r, Union_pure xi yi = Ok r /\ index u k = Some (IFields r))
            /\ (forall xi vy, index a k = Some (IFields xi) -> index b k = Some vy ->
                  is_IFields vy = false -> index u k = Some (IFields xi))
            /\ (forall vx vy, index a k = Some vx -> is_IFields vx = false ->
                  index b k = Some vy -> index u k = Some vy)).
Proof.
  intros Hx Hy Hdisj Hsz.
  pose proof (Union_refines ko fuel x y h a b Fx Fy Hx Hy Hdisj Hsz) as Href.
  unfold Union_spec in Href. split.
  - intros Hc. by rewrite (clash_Union_pure a b Hc) in Href.
  - intros Hc. destruct (Union_pure a b) as [u|e] eqn:HU.
    2: { by destruct (Union_pure_error _ _ _ HU). }
    destruct Href as (h' & HUn & Ht & Hfr). exists h', u.
    split; [done|]. split; [done|]. split; [done|]. split; [done|].
    destruct b as [bm|].
    2: { rewrite Union_pure_nil_r in HU. injection HU as <-. intros k. cbn.
         repeat split; try done. }
    destruct a as [am|].
    2: { destruct (decide (bm = ∅)) as [->|Hne].
         - rewrite Union_pure_unfold, map_fold_empty in HU. injection HU as <-.
           intros k. cbn. rewrite lookup_empty. repeat split; done.
         - by rewrite (Union_pure_nil_l bm Hne) in HU. }
    pose proof (Union_pure_entries am bm) as HE. rewrite HU in HE.
    destruct HE as (um & -> & Hum). intros k. cbn.
    specialize (Hum k). unfold Union_entry in Hum. repeat split.
    + intros Hb. rewrite Hb in Hum. congruence.
    + intros Ha. rewrite Ha in Hum. destruct (bm !! k); congruence.
    + intros xi yi Ha Hb. rewrite Ha, Hb in Hum.
      destruct (Union_pure xi yi) as [r|e]; [|done]. exists r. split; [done|].
      cbn in Hum. congruence.
    + intros xi vy Ha Hb Hvy. rewrite Ha, Hb in Hum. destruct vy; try done; congruence.
    + intros vx vy Ha Hvx Hb. rewrite Ha, Hb in Hum. destruct vx; try done; congruence.
Qed.

(** A map of scalars only is a tree at its address. *)
Lemma tree_flat (h : heap) (p : addr) (hm : gmap string hval) (m : gmap string ifc)
    (F : gset addr) :
  h !! p = Some hm -> p ∈ F -> dom hm = dom m ->
  (forall k hv v, hm !! k = Some hv -> m !! k = Some v ->
     (exists b, hv = HBool b /\ v = IBool b) \/ (exists o, hv = HOther o /\ v = IOther o)) ->
  tree h (HFields (Some p)) (IFields (Some m)) F.
Proof.
  intros Hp HpF Hdom Hflat. apply (tree_map h p hm m (fun _ => ∅)); try done.
  intros k hv v H1 H2.
  destruct (Hflat k hv v H1 H2) as [(b & -> & ->)|(o & -> & ->)]; constructor.
Qed.

Lemma heap_AB_tree_A :
  tree heap_AB (HFields (Some 1%positive)) (IFields (Some fields_A)) {[1%positive; 2%positive]}.
Proof.
  apply (tree_map heap_AB 1%positive
           {[ "foo" := HBool true; "baz" := HFields (Some 2%positive); "name" := HBool true ]}
           fields_A
           (fun k => if decide (k = "baz") then {[2%positive]} else ∅)).
  - reflexivity.
  - set_solver.
  - apply (bool_decide_unpack _). vm_compute. exact I.
  - intros k hv v H1 H2. unfold fields_A in H2.
    apply lookup_insert_Some in H1 as [[<- <-]|[_ H1]].
    { rewrite lookup_insert_eq in H2. injection H2 as <-. constructor. }
    apply lookup_insert_Some in H1 as [[<- <-]|[_ H1]].
    { rewrite lookup_insert_ne, lookup_insert_eq in H2 by done. injection H2 as <-.
      rewrite decide_True by done.
      apply (tree_flat heap_AB 2%positive {[ "a" := HBool true ]}).
      - reflexivity.
      - set_solver.
      - by rewrite !dom_singleton_L.
      - intros k hv v [<- <-]%lookup_singleton_Some [_ <-]%lookup_singleton_Some.
        left. eauto. }
    apply lookup_singleton_Some in H1 as [<- <-].
    rewrite !lookup_insert_ne in H2 by done.
    apply lookup_singleton_Some in H2 as [_ <-]. constructor.
  - intros k. destruct (decide (k = "baz")); set_solver.
  - intros k1 k2 Hne. destruct (decide (k1 = "baz")), (decide (k2 = "baz")); set_solver.
Qed.

Lemma heap_AB_tree_B :
  tree heap_AB (HFields (Some 3%positive)) (IFields (Some fields_B)) {[3%positive; 4%positive]}.
Proof.
  apply (tree_map heap_AB 3%positive
           {[ "foo" := HOther 7; "bar" := HBool true; "baz" := HFields (Some 4%positive) ]}
           fields_B
           (fun k => if decide (k = "baz") then {[4%positive]} else ∅)).
  - reflexivity.
  - set_solver.
  - apply (bool_decide_unpack _). vm_compute. exact I.
  - intros k hv v H1 H2. unfold fields_B in H2.
    apply lookup_insert_Some in H1 as [[<- <-]|[_ H1]].
    { rewrite lookup_insert_eq in H2. injection H2 as <-. constructor. }
    apply lookup_insert_Some in H1 as [[<- <-]|[_ H1]].
    { rewrite lookup_insert_ne, lookup_insert_eq in H2 by done. injection H2 as <-.
      constructor. }
    apply lookup_singleton_Some in H1 as [<- <-].
    rewrite !lookup_insert_ne in H2 by done.
    apply lookup_singleton_Some in H2 as [_ <-]. rewrite decide_True by done.
    apply (tree_flat heap_AB 4%positive {[ "b" := HBool true ]}).
    + reflexivity.
    + set_solver.
    + by rewrite !dom_singleton_L.
    + intros k hv v [<- <-]%lookup_singleton_Some [_ <-]%lookup_singleton_Some.
      left. eauto.
  - intros k. destruct (decide (k = "baz")); set_solver.
  - intros k1 k2 Hne. destruct (decide (k1 = "baz")), (decide (k2 = "baz")); set_solver.
Qed.

Lemma fields_A_B_no_clash : ~ clash (Some fields_A) (Some fields_B).
Proof. intros Hc%clash_Union_pure. vm_compute in Hc. discriminate. Qed.

Lemma Union_entries_witness :
  exists h' u,
    Union 6 keys_reversed (Some 1%positive) (Some 3%positive) heap_AB
    = Some (Ok (Some 1%positive, h'))
    /\ tree h' (HFields (Some 1%positive)) (IFields u)
         ({[1%positive; 2%positive]} ∪ {[3%positive; 4%positive]})
    /\ (forall p, p ∉ ({[1%positive; 2%positive]} : gset addr) -> h' !! p = heap_AB !! p)
    /\ Union_pure (Some fields_A) (Some fields_B) = Ok u
    /\ forall k,
        (index (Some fields_B) k = None -> index u k = index (Some fields_A) k)
        /\ (index (Some fields_A) k = None -> index u k = index (Some fields_B) k)
        /\ (forall xi yi, index (Some fields_A) k = Some (IFields xi) ->
              index (Some fields_B) k = Some (IFields yi) ->
              exists r, Union_pure xi yi = Ok r /\ index u k = Some (IFields r))
        /\ (forall xi vy, index (Some fields_A) k = Some (IFields xi) ->
              index (Some fields_B) k = Some vy ->
              is_IFields vy = false -> index u k = Some (IFields xi))
        /\ (forall vx vy, index (Some fields_A) k = Some vx -> is_IFields vx = false ->
              index (Some fields_B) k = Some vy -> index u k = Some vy).
Proof.
  apply (Union_entries 6 keys_reversed heap_AB (Some 1%positive) (Some 3%positive)
           (Some fields_A) (Some fields_B) {[1%positive; 2%positive]}
           {[3%positive; 4%positive]}).
  - exact heap_AB_tree_A.
  - exact heap_AB_tree_B.
  - apply (bool_decide_unpack _). vm_compute. exact I.
  - apply (bool_decide_unpack _). vm_compute. exact I.
  - exact fields_A_B_no_clash.
Defined.

(** C7 (as stated) fails: where the two arguments hold scalars of different
    types under a key, the first argument holds the second argument's
    value after the call, not its own. *)
Lemma Union_scalar_mismatch_second_wins :
  heap_index heap_scalars (Some 1%positive) "k" = Some (HBool true)
  /\ heap_index heap_scalars (Some 2%positive) "k" = Some (HOther 7)
  /\ exists h',
       Union 1 keys_listed (Some 1%positive) (Some 2%positive) heap_scalars
       = Some (Ok (Some 1%positive, h'))
       /\ heap_index h' (Some 1%positive) "k" = Some (HOther 7)
       /\ heap_index h' (Some 1%positive) "k"
          <> heap_index heap_scalars (Some 1%positive) "k".
Proof.
  split; [reflexivity|]. split; [reflexivity|].
  eexists. split; [vm_compute; reflexivity|]. split; [reflexivity|].
  vm_compute. discriminate.
Qed.

(** Union panics where the first argument holds a nil Fields under a key
    under which the second holds Fields with a key. *)
Example Union_nil_nested_panics :
  Union 2 keys_listed (Some 1%positive) (Some 2%positive) heap_nil_nested
  = Some (Err (Panic "assignment to entry in nil map")).
Proof. vm_compute. reflexivity. Qed.

(** Union works in place and stores the nested maps of its second argument
    by reference.  With A = {parent: F} and B = {parent: {name: true},
    child: F}, where F = {id: true} is one map, the call merges name into
    F, and child - stored as that very F - holds both id and name in the
    result, whatever the order of the keys. *)
Example Union_shared_map :
  forall ko, ko = keys_listed \/ ko = keys_reversed ->
  exists h',
    Union 2 ko (Some 1%positive) (Some 2%positive) heap_shared
    = Some (Ok (Some 1%positive, h'))
    /\ heap_index h' (Some 1%positive) "child" = Some (HFields (Some 3%positive))
    /\ heap_index h' (Some 1%positive) "parent" = Some (HFields (Some 3%positive))
    /\ map_at h' 3%positive = {[ "id" := HBool true; "name" := HBool true ]}
    /\ map_at h' 2%positive = map_at heap_shared 2%positive.
Proof.
  intros ko [->| ->]; eexists; (split; [vm_compute; reflexivity|]);
    repeat split; apply (bool_decide_unpack _); vm_compute; exact I.
Qed.

(** Where the first argument holds the second under a key, the loop over
    the second argument adds a key to the map it ranges over: the outcome
    is open. *)
Example Union_grows_open :
  Union 3 keys_listed (Some 1%positive) (Some 2%positive) heap_grows = None.
Proof. vm_compute. reflexivity. Qed.

(** ** The renderer *)

(** Induction on a field tree, with the property at hand for every child. *)
Lemma field_tree_ind (P : field -> Prop) :
  (forall d ds fs k, Forall P fs -> P (Field d ds fs k)) ->
  forall f, P f.
Proof.
  intros H. fix IH 1. intros [d ds fs k]. apply H.
  induction fs as [|c fs IHfs]; constructor; [apply IH|exact IHfs].
Qed.

Lemma tree_nested_built :
  (operation_of latin1Tables type_nested []).1 = Ok tree_nested.
Proof. vm_compute. reflexivity. Qed.

Lemma tree_simple_built :
  (operation_of latin1Tables type_simple []).1 = Ok tree_simple.
Proof. vm_compute. reflexivity. Qed.

(** A boolean entry on a field with children is an error, whatever the
    boolean and whatever the Keep flag of the field. *)
Lemma tokenizeWithFields_bool_parent (f : field) (b : bool) (w : string) :
  f_Fields f <> [] ->
  tokenizeWithFields f (Some (IBool b)) w
  = (w, Err (ErrTrueHasChildren (d_Name (f_Decl f)))).
Proof.
  intros Hc. destruct f as [d ds fs k]. cbn in Hc. destruct fs as [|c fs]; [done|].
  reflexivity.
Qed.

(** A nested fieldset on a field without children is an error, whatever the
    Keep flag of the field. *)
Lemma tokenizeWithFields_submap_leaf (f : field) (m : Fields) (w : string) :
  f_Fields f = [] ->
  tokenizeWithFields f (Some (IFields m)) w
  = (w, Err (ErrSubmapNoChildren (d_Name (f_Decl f)))).
Proof. intros Hc. destruct f as [d ds fs k]. cbn in Hc. subst fs. reflexivity. Qed.

(** A field without Keep whose key is absent from the fieldset, or that has
    no children and the entry false, is not written, and that is no error. *)
Lemma tokenizeWithFields_not_written (f : field) (w : string) :
  f_Keep f = false ->
  tokenizeWithFields f None w = (w, Ok false)
  /\ (f_Fields f = [] -> tokenizeWithFields f (Some (IBool false)) w = (w, Ok false)).
Proof.
  intros Hk. destruct f as [d ds fs k]. cbn in Hk. subst k. split; [reflexivity|].
  cbn. intros ->. reflexivity.
Qed.

(** C2.  The field [nested] of [tree_nested] has children and no Keep flag.
    With the fieldset entry false for it, rendering does not skip the field
    in silence: it fails, with the error worded for an entry set to true. *)
Theorem marshal_false_entry_on_parent_fails :
  (marshal latin1Tables range_listed type_nested "query"
     (Some {[ "fieldOne" := IBool true; "nested" := IBool false ]}) []).1
  = Err (ErrTrueHasChildren "nested")
  /\ Error (ErrTrueHasChildren "nested")
     = "field nested set to true in sparse fieldset map has children fields, needs submap for children fields".
Proof. split; vm_compute; reflexivity. Qed.

(** C3.  The fields [kept] and [leaf] of [tree_nested] have the Keep flag.
    They are not written whatever the fieldset holds for them: the entry
    true for [kept], which has children, and a nested fieldset for [leaf],
    which has none, make the rendering fail. *)
Theorem marshal_keep_does_not_override_shape :
  (marshal latin1Tables range_listed type_nested "query"
     (Some {[ "kept" := IBool true ]}) []).1
  = Err (ErrTrueHasChildren "kept")
  /\ (marshal latin1Tables range_listed type_nested "query"
        (Some {[ "leaf" := IFields (Some ∅) ]}) []).1
     = Err (ErrSubmapNoChildren "leaf")
  /\ (marshal latin1Tables range_listed type_nested "query" (Some ∅) []).1
     = Ok ("query {" +:+ newline +:+ "testQuery {" +:+ newline +:+ "kept {" +:+ newline
           +:+ "}" +:+ newline +:+ "leaf" +:+ newline +:+ "}" +:+ newline +:+ "}").
Proof. repeat split; vm_compute; reflexivity. Qed.

(** Without a fieldset the renderer writes every node of the tree: it cannot
    fail, and what it writes is [render_body]. *)
Lemma field_tokenize_nil_all (f : field) :
  forall w, field_tokenize f None w = (render_body f w, Ok true).
Proof.
  induction f as [d ds fs k IH] using field_tree_ind. intros w.
  destruct fs as [|c fs]; [reflexivity|].
  cbn [field_tokenize render_body f_Fields f_Directives].
  set (g := fun (child : field) (w : string) =>
              field_tokenize child None (declaration_tokenize (f_Decl child) w)).
  set (h := fun (w : string) (child : field) =>
              render_body child (declaration_tokenize (f_Decl child) w) +:+ newline).
  enough (Hloop : forall l w0, Forall (fun c => forall w, field_tokenize c None w
                                                = (render_body c w, Ok true)) l ->
            write_children g l w0 = (fold_left h l w0, Ok tt)).
  { by rewrite (Hloop (c :: fs) _ IH). }
  clear. induction l as [|c l IHl]; intros w0 Hl; [reflexivity|].
  apply Forall_cons in Hl as [Hc Hl].
  cbn [write_children fold_left]. unfold g at 1. rewrite Hc. cbn iota.
  rewrite (IHl _ Hl). reflexivity.
Qed.

(** C10.  Whatever the delimiters, FieldsFromDelimitedList of the empty list
    is the nil Fields - not the empty one -, and under the nil Fields the
    renderer writes every field of the tree, kept or not.  Under the empty
    Fields it writes none of the fields of [tree_simple]. *)
Theorem FieldsFromDelimitedList_empty_renders_all (fieldDelimiter subFieldDelimiter : string) :
  FieldsFromDelimitedList EmptyString fieldDelimiter subFieldDelimiter = Ok None
  /\ (None : Fields) <> Some ∅
  /\ (forall (operation : field) (declName w : string),
        tokenizeAsRoot operation declName None w
        = (render_body operation (w +:+ declName), Ok true))
  /\ tokenizeAsRoot tree_simple "query" None EmptyString
     = ("query {" +:+ newline +:+ "testQuery {" +:+ newline +:+ "fieldOne" +:+ newline
        +:+ "fieldTwo" +:+ newline +:+ "}" +:+ newline +:+ "}", Ok true)
  /\ tokenizeAsRoot tree_simple "query" (Some ∅) EmptyString
     = ("query {" +:+ newline +:+ "testQuery {" +:+ newline +:+ "}" +:+ newline +:+ "}",
        Ok true).
Proof.
  split; [reflexivity|]. split; [done|]. split.
  - intros operation declName w. unfold tokenizeAsRoot. apply field_tokenize_nil_all.
  - split; vm_compute; reflexivity.
Qed.

(** ** parseTag *)

Lemma eat_Some c bs r : eat c bs = Some r -> bs = c :: r.
Proof.
  destruct bs as [|b t]; [done|]. cbn.
  destruct (b =? c) eqn:Hb; [|done]. apply Z.eqb_eq in Hb. congruence.
Qed.






















(** ** marshal and the cache *)


(** A tree found in the cache is used as it is, and the cache is left as it
    is. *)
Lemma operation_of_hit U q c operation :
  cache_Load c q = Some operation -> operation_of U q c = (Ok operation, c).
Proof. intros H. unfold operation_of. by rewrite H. Qed.



Lemma tokenizeWithFields_eq (f : field) (fields : option ifc) (w : string) :
  tokenizeWithFields f fields w
  = match fieldset_switch f fields with
    | Err e => (w, Err e)
    | Ok write =>
        let write := if f_Keep f then true else write in
        if negb write then (w, Ok false)
        else
          let w := write_directives (f_Directives f) (declaration_tokenize (f_Decl f) w) in
          match f_Fields f with
          | [] => (w, Ok write)
          | children =>
              match write_children
                      (fun child => tokenizeWithFields child (child_entry fields child))
                      children (w +:+ " {" +:+ newline) with
              | (w, Err e) => (w, Err e)
              | (w, Ok _) => (w +:+ "}", Ok write)
              end
          end
    end.
Proof. destruct f. reflexivity. Qed.























(** ** The walker always has fuel enough *)

Lemma rtype_size_pos t : (1 <= rtype_size t)%nat.
Proof. destruct t; cbn; lia. Qed.

Lemma deref_size t : (rtype_size (deref t) <= rtype_size (t))%nat.
Proof. induction t; cbn; lia. Qed.

Lemma list_sum_elem {A} (f : A -> nat) (l : list A) (x : A) :
  x ∈ l -> (f x <= list_sum (map f l))%nat.
Proof.
  induction l as [|y l IH]; intros Hx; [by apply elem_of_nil in Hx|].
  change (list_sum (map f (y :: l))) with (f y + list_sum (map f l))%nat.
  apply elem_of_cons in Hx as [->|Hx]; [lia|]. specialize (IH Hx). lia.
Qed.

Lemma listFields_size t n :
  n ∈ listFields t -> (rtype_size (n_Type n) < rtype_size t)%nat.
Proof.
  destruct t as [name fs| | | |]; cbn; try (intros H; by apply elem_of_nil in H).
  intros (sf & Hsf & Hn)%list_elem_of_omap.
  repeat case_decide; try done. injection Hn as <-. cbn.
  pose proof (deref_size (sf_Type sf)).
  pose proof (list_sum_elem (fun sf => rtype_size (sf_Type sf)) fs sf Hsf). cbn in *. lia.
Qed.

Lemma walk_each_ext {S} (g1 g2 : node -> S -> S * option error) l :
  (forall child, child ∈ l -> forall st, g1 child st = g2 child st) ->
  forall st, walk_each g1 l st = walk_each g2 l st.
Proof.
  induction l as [|child l IH]; intros Hg st; [done|]. cbn.
  rewrite (Hg child) by (apply elem_of_cons; by left).
  destruct (g2 child st) as [st' [e|]]; [done|].
  apply IH. intros c Hc. apply Hg. apply elem_of_cons. by right.
Qed.

(** With fuel no less than the size of the type of the node, walker does not
    depend on the fuel: the bound of the recursion is never met. *)
Lemma walker_fuel {S} (visitFn : visit) : forall fuel1 fuel2 n (st : S),
  (rtype_size (n_Type n) <= fuel1)%nat -> (rtype_size (n_Type n) <= fuel2)%nat ->
  walker visitFn fuel1 n st = walker visitFn fuel2 n st.
Proof.
  induction fuel1 as [|fuel1 IH]; intros fuel2 n st H1 H2.
  { pose proof (rtype_size_pos (n_Type n)). lia. }
  destruct fuel2 as [|fuel2]; [pose proof (rtype_size_pos (n_Type n)); lia|].
  cbn [walker]. destruct (visitFn (Some n) st) as [st1 [e|]]; [done|].
  assert (Heach : forall t, (rtype_size t <= Datatypes.S fuel1)%nat ->
            (rtype_size t <= Datatypes.S fuel2)%nat ->
            walk_each (walker visitFn fuel1) (listFields t) st1
            = walk_each (walker visitFn fuel2) (listFields t) st1).
  { intros t Ht1 Ht2. apply walk_each_ext. intros child Hc st'.
    pose proof (listFields_size _ _ Hc). apply IH; lia. }
  assert (Helem : forall e, (Datatypes.S (rtype_size e) <= Datatypes.S fuel1)%nat ->
            (Datatypes.S (rtype_size e) <= Datatypes.S fuel2)%nat ->
            match rtype_Kind (deref e) with
            | KStruct => walk_each (walker visitFn fuel1) (listFields (deref e)) st1
            | _ => walker visitFn fuel1 (Node (rtype_Name (deref e)) (deref e) EmptyString) st1
            end
            = match rtype_Kind (deref e) with
              | KStruct => walk_each (walker visitFn fuel2) (listFields (deref e)) st1
              | _ => walker visitFn fuel2 (Node (rtype_Name (deref e)) (deref e) EmptyString) st1
              end).
  { intros e He1 He2. pose proof (deref_size e).
    destruct (rtype_Kind (deref e)); try (apply IH; cbn; lia).
    apply Heach; lia. }
  destruct (n_Type n) as [name fs|e|e|name e|k name] eqn:Ht; cbn [rtype_size] in H1, H2.
  - rewrite <- Ht. rewrite Heach; [done| |]; rewrite Ht; cbn [rtype_size]; lia.
  - by rewrite Helem.
  - by rewrite Helem.
  - by rewrite Helem.
  - done.
Qed.

(** ** Where the tokens of a tree come from *)

Lemma tokens_eq (f : field) :
  tokens f
  = d_Tokens (f_Decl f)
    ++ filter (fun t => t <> token_zero) (map dir_Token (f_Directives f))
    ++ flat_map tokens (f_Fields f).
Proof. destruct f. reflexivity. Qed.

Lemma elem_of_flat_map {A B} (f : A -> list B) (l : list A) (y : B) :
  y ∈ flat_map f l <-> exists x, x ∈ l /\ y ∈ f x.
Proof.
  rewrite list_elem_of_In, in_flat_map. split; intros (x & Hx & Hy); exists x.
  - by rewrite !list_elem_of_In.
  - by rewrite <- !list_elem_of_In.
Qed.

(** The tokens gathered from a tree are the tokens of the declarations and
    the non-zero tokens of the directives of all its nodes. *)
Lemma elem_of_tokens (f : field) (t : token) : t ∈ tokens f <-> tree_token f t.
Proof.
  unfold tree_token. revert t. induction f as [d ds fs k IH] using field_tree_ind. intros t.
  rewrite tokens_eq. cbn [f_Decl f_Directives f_Fields].
  rewrite !elem_of_app, list_elem_of_filter, list_elem_of_fmap, elem_of_flat_map.
  rewrite Forall_forall in IH. split.
  - intros [Hd|[[Hne (dr & -> & Hdr)]|(c & Hc & Ht)]].
    + exists (Field d ds fs k). split; [constructor|]. by left.
    + exists (Field d ds fs k). split; [constructor|]. right. eauto.
    + apply (IH c Hc) in Ht as (g & Hsub & Hg).
      exists g. split; [|done]. by eapply sub_child.
  - intros (g & Hsub & Hg). inversion Hsub as [|? c ? Hc Hcg]; subst.
    + cbn in Hg. destruct Hg as [?|[Hne (dr & Hdr & <-)]]; [by left|].
      right. left. eauto.
    + right. right. cbn in Hc. exists c. split; [done|]. apply (IH c Hc). eauto.
Qed.

(** C4.  argsFromTokens over the tokens gathered from a field tree fails,
    with the conflicting-type error that names the variable, exactly when
    two tokens anywhere in the tree share the variable name and differ in
    the type; nothing else makes it fail, so distinct variable names never
    conflict.  When it succeeds, every variable of the tree has one entry
    "$<arg>: <Kind>", whatever the number of tokens that mention it and in
    whatever order the map is ranged over: the entries returned are, up to
    their order, the strings "$" ++ arg ++ ": " ++ Kind, one for each
    variable of the tree. *)
Theorem argsFromTokens_conflict_iff (ro : rangeOrder) (f : field) :
  ((exists a, argsFromTokens ro (tokens f) = Err (ErrConflictingType a)) <->
   (exists t1 t2, tree_token f t1 /\ tree_token f t2
                  /\ t_Arg t1 = t_Arg t2 /\ t_Kind t1 <> t_Kind t2))
  /\ (forall e, argsFromTokens ro (tokens f) = Err e ->
        exists t1 t2, tree_token f t1 /\ tree_token f t2 /\ t_Arg t1 = t_Arg t2
                      /\ t_Kind t1 <> t_Kind t2 /\ e = ErrConflictingType (t_Arg t1))
  /\ (forall args, argsFromTokens ro (tokens f) = Ok args ->
        exists m : gmap string string,
          (forall a k, m !! a = Some k <->
                       exists t, tree_token f t /\ t_Arg t = a /\ t_Kind t = k)
          /\ Permutation args
               (map (fun e : string * string => "$" +:+ e.1 +:+ ": " +:+ e.2)
                    (map_to_list m))).
Proof.
  destruct (argsFromTokens_spec ro (tokens f)) as (Hiff & Herr & Hok).
  split; [|split].
  - rewrite Hiff. split; intros (t1 & t2 & H1 & H2 & H);
      exists t1, t2; (split; [|split]); try done; by apply elem_of_tokens.
  - intros e He. destruct (Herr e He) as (t1 & t2 & H1 & H2 & H).
    exists t1, t2. (split; [|split]); try done; by apply elem_of_tokens.
  - intros args Ha. destruct (Hok args Ha) as (m & Hm & Hp). exists m. split; [|done].
    intros a k. rewrite Hm. split; intros (t & Ht & H); exists t; (split; [|done]);
      by apply elem_of_tokens.
Qed.

(** ** The matchers always have fuel enough *)

Lemma span_word_app bs : forall w r, span_word bs = (w, r) -> bs = w ++ r.
Proof.
  induction bs as [|b bs IH]; intros w r H; cbn in H.
  - by injection H as <- <-.
  - destruct (is_word b); [|by injection H as <- <-].
    destruct (span_word bs) as [w' r']. injection H as <- <-.
    cbn. f_equal. by apply IH.
Qed.

Lemma word_run_app bs w r : word_run bs = Some (w, r) -> bs = w ++ r /\ w <> [].
Proof.
  unfold word_run. destruct (span_word bs) as [w' r'] eqn:Hs.
  destruct w' as [|b w']; [done|]. intros [= <- <-]. split; [by apply span_word_app|done].
Qed.

Lemma opt_byte_app c bs t r : opt_byte c bs = (t, r) -> bs = t ++ r.
Proof.
  destruct bs as [|b bs]; cbn; [by intros [= <- <-]|].
  destruct (b =? c) eqn:Hb; intros [= <- <-]; [|done].
  apply Z.eqb_eq in Hb. by subst.
Qed.

(** A match of reParam at the front of [bs] is a non-empty prefix of [bs]. *)
Lemma reParam_match_at_text bs tok text rest :
  reParam_match_at bs = Some (tok, text, rest) -> bs = text ++ rest /\ text <> [].
Proof.
  unfold reParam_match_at.
  destruct (word_run bs) as [[name r1]|] eqn:H1; [|done]. cbn.
  destruct (eat 58 r1) as [r2|] eqn:H2; [|done]. cbn.
  destruct (eat 36 r2) as [r3|] eqn:H3; [|done]. cbn.
  destruct (word_run r3) as [[arg r4]|] eqn:H4; [|done]. cbn.
  destruct (eat 60 r4) as [r5|] eqn:H5; [|done]. cbn.
  destruct (opt_byte 91 r5) as [lb r6] eqn:H6.
  destruct (word_run r6) as [[ty r7]|] eqn:H7; [|done]. cbn.
  destruct (opt_byte 33 r7) as [bang r8] eqn:H8.
  destruct (opt_byte 93 r8) as [rb r9] eqn:H9.
  destruct (eat 62 r9) as [r10|] eqn:H10; [|done]. cbn.
  intros [= <- <- <-].
  apply word_run_app in H1 as [-> Hname], H4 as [-> _], H7 as [-> _].
  apply eat_Some in H2 as ->, H3 as ->, H5 as ->, H10 as ->.
  apply opt_byte_app in H6 as ->, H8 as ->, H9 as ->.
  split; [|by destruct name].
  repeat (rewrite <- ?app_assoc; cbn [app]; f_equal).
Qed.

Lemma reParam_match_at_shorter bs tok text rest :
  reParam_match_at bs = Some (tok, text, rest) -> (length rest < length bs)%nat.
Proof.
  intros [-> Ht]%reParam_match_at_text. rewrite length_app.
  destruct text; [done|]. cbn. lia.
Qed.

Lemma reDecl_args_tail_fuel : forall fuel1 fuel2 bs,
  (length bs < fuel1)%nat -> (length bs < fuel2)%nat ->
  reDecl_args_tail fuel1 bs = reDecl_args_tail fuel2 bs.
Proof.
  induction fuel1 as [|fuel1 IH]; intros fuel2 bs H1 H2; [lia|].
  destruct fuel2 as [|fuel2]; [lia|]. cbn.
  destruct (reParam_match_at bs) as [[[tok text] rest]|] eqn:Hm; [|done].
  apply reParam_match_at_shorter in Hm.
  destruct (opt_byte 44 rest) as [t r] eqn:Ho. apply opt_byte_app in Ho as Hrest.
  cbn [snd]. assert (length r <= length rest)%nat by (subst rest; rewrite length_app; lia).
  apply IH; lia.
Qed.

Lemma reParam_scan_fuel : forall fuel1 fuel2 bs,
  (length bs <= fuel1)%nat -> (length bs <= fuel2)%nat ->
  reParam_scan fuel1 bs = reParam_scan fuel2 bs.
Proof.
  induction fuel1 as [|fuel1 IH]; intros fuel2 bs H1 H2.
  { destruct bs; [|cbn in H1; lia]. by destruct fuel2. }
  destruct fuel2 as [|fuel2]; [destruct bs; [done|cbn in H2; lia]|].
  destruct bs as [|b bs]; [done|]. cbn [reParam_scan].
  destruct (reParam_match_at (b :: bs)) as [[[tok text] rest]|] eqn:Hm.
  - apply reParam_match_at_shorter in Hm. f_equal. cbn in *. apply IH; lia.
  - f_equal. cbn in *. apply IH; lia.
Qed.

Lemma byte_val_chr b : 0 <= b < 256 -> byte_val (byte_chr b) = b.
Proof.
  intros H. unfold byte_val, byte_chr.
  rewrite N_ascii_embedding; [lia|]. lia.
Qed.

Lemma bytes_str bs : Forall (fun b => 0 <= b < 256) bs -> bytes (str bs) = bs.
Proof.
  induction 1 as [|b bs Hb Hbs IH]; cbn; [done|]. by rewrite byte_val_chr, IH.
Qed.

Lemma length_bytes_slice_from i s :
  length (bytes (slice_from i s)) = (length (bytes s) - i)%nat.
Proof.
  unfold slice_from. rewrite bytes_str.
  - apply length_drop.
  - apply Forall_drop, bytes_range.
Qed.

Lemma prefix_bytes_length p : forall s, prefix_bytes p s = true -> (length p <= length s)%nat.
Proof.
  induction p as [|a p IH]; intros [|b s] H; cbn in *; try lia; try done.
  apply andb_true_iff in H as [_ H]. specialize (IH _ H). lia.
Qed.

Lemma Index_bytes_bound s : forall sub i,
  Index_bytes s sub = Some i -> (i + length sub <= length s)%nat.
Proof.
  induction s as [|b s IH]; intros sub i H; cbn [Index_bytes] in H.
  - destruct (prefix_bytes sub []) eqn:Hp; [|done]. injection H as <-.
    apply prefix_bytes_length in Hp. cbn in *. lia.
  - destruct (prefix_bytes sub (b :: s)) eqn:Hp.
    + injection H as <-. apply prefix_bytes_length in Hp. cbn in *. lia.
    + destruct (Index_bytes s sub) as [j|] eqn:Hj; [|done]. injection H as <-.
      specialize (IH _ _ Hj). cbn. lia.
Qed.

(** addRawFieldToFields does not depend on the fuel, once there is more of
    it than the raw field is long: the bound of the recursion is never
    met. *)
Lemma addRawFieldToFields_fuel_enough delimiter : forall fuel1 fuel2 raw fields,
  (length (bytes raw) < fuel1)%nat -> (length (bytes raw) < fuel2)%nat ->
  addRawFieldToFields_fuel fuel1 raw delimiter fields
  = addRawFieldToFields_fuel fuel2 raw delimiter fields.
Proof.
  induction fuel1 as [|fuel1 IH]; intros fuel2 raw fields H1 H2; [lia|].
  destruct fuel2 as [|fuel2]; [lia|]. cbn [addRawFieldToFields_fuel].
  case_decide as Hcount; [|done].
  destruct (Index raw delimiter) as [split|]; [|done].
  case_decide as Hlen; [done|].
  destruct (match index fields (slice_to split raw) with
            | Some (IFields _) => Ok fields
            | _ => assign fields (slice_to split raw) (IFields (Some ∅))
            end) as [fields'|e]; [|done]. cbn [bind].
  destruct (index fields' (slice_to split raw)) as [[b|inner|v]|]; try done.
  rewrite (IH fuel2); [done| |]; rewrite length_bytes_slice_from; lia.
Qed.

Lemma Split_fuel_enough sep : sep <> [] -> forall fuel1 fuel2 s,
  (length s <= fuel1)%nat -> (length s <= fuel2)%nat ->
  Split_fuel fuel1 s sep = Split_fuel fuel2 s sep.
Proof.
  intros Hsep. induction fuel1 as [|fuel1 IH]; intros fuel2 s H1 H2.
  - destruct s; [|cbn in H1; lia]. destruct fuel2; cbn [Split_fuel]; [done|].
    destruct (Index_bytes [] sep) as [m|] eqn:Hm; [|done].
    apply Index_bytes_bound in Hm. destruct sep; [done|]. cbn in Hm. lia.
  - destruct fuel2 as [|fuel2].
    + destruct s; [|cbn in H2; lia]. cbn [Split_fuel].
      destruct (Index_bytes [] sep) as [m|] eqn:Hm; [|done].
      apply Index_bytes_bound in Hm. destruct sep; [done|]. cbn in Hm. lia.
    + cbn [Split_fuel]. destruct (Index_bytes s sep) as [m|] eqn:Hm; [|done].
      apply Index_bytes_bound in Hm. f_equal.
      assert (0 < length sep)%nat by (destruct sep; [done|cbn; lia]).
      apply IH; rewrite length_drop; lia.
Qed.

Lemma Count_fuel_enough sep : sep <> [] -> forall fuel1 fuel2 s,
  (length s < fuel1)%nat -> (length s < fuel2)%nat ->
  Count_fuel fuel1 s sep = Count_fuel fuel2 s sep.
Proof.
  intros Hsep. induction fuel1 as [|fuel1 IH]; intros fuel2 s H1 H2; [lia|].
  destruct fuel2 as [|fuel2]; [lia|]. cbn [Count_fuel].
  destruct (Index_bytes s sep) as [m|] eqn:Hm; [|done].
  apply Index_bytes_bound in Hm. f_equal.
  assert (0 < length sep)%nat by (destruct sep; [done|cbn; lia]).
  apply IH; rewrite length_drop; lia.
Qed.

(** ** Further properties of the renderer and of marshal *)

(** A kept field is written whenever the shape of its fieldset entry fits
    the field: the renderer then does not skip it. *)
Lemma tokenizeWithFields_keep (f : field) (fields : option ifc) (w : string) (b : bool) :
  f_Keep f = true -> fieldset_switch f fields = Ok b ->
  (tokenizeWithFields f fields w).2 <> Ok false.
Proof.
  intros Hk Hsw. rewrite tokenizeWithFields_eq, Hsw, Hk. cbn [negb]. cbv zeta.
  destruct (f_Fields f); [done|].
  by destruct (write_children _ _ _) as [w1 [u|e]].
Qed.

Lemma Permutation_short {A} (l l' : list A) :
  (length l <= 1)%nat -> Permutation l' l -> l' = l.
Proof.
  intros Hlen Hp. destruct l as [|x [|y l]]; [| |cbn in Hlen; lia].
  - by apply Permutation_nil, Permutation_sym.
  - by apply Permutation_length_1_inv, Permutation_sym.
Qed.

(** When all tokens share one variable, the order of ranging over the map
    does not show in the result of argsFromTokens. *)
Lemma argsFromTokens_single_variable (ro1 ro2 : rangeOrder) (toks : list token) :
  (forall t1 t2, t1 ∈ toks -> t2 ∈ toks -> t_Arg t1 = t_Arg t2) ->
  argsFromTokens ro1 toks = argsFromTokens ro2 toks.
Proof.
  intros Hone. unfold argsFromTokens.
  destruct (argsMap_loop toks ∅) as [m|e] eqn:Hloop; [|done]. cbn.
  destruct (argsMap_loop_ok _ _ _ Hloop) as (_ & _ & Hfrom).
  assert (Hlen : (length (map_to_list m) <= 1)%nat).
  { pose proof (NoDup_fst_map_to_list m) as Hnd.
    destruct (map_to_list m) as [|[a1 k1] [|[a2 k2] l]] eqn:Hl; cbn; [lia|lia|].
    exfalso.
    assert (m !! a1 = Some k1) as H1
      by (apply elem_of_map_to_list; rewrite Hl; apply elem_of_cons; by left).
    assert (m !! a2 = Some k2) as H2
      by (apply elem_of_map_to_list; rewrite Hl; apply elem_of_cons; right;
          apply elem_of_cons; by left).
    destruct (Hfrom _ _ H1) as [H0|(t1 & Ht1 & Ha1 & _)]; [by rewrite lookup_empty in H0|].
    destruct (Hfrom _ _ H2) as [H0|(t2 & Ht2 & Ha2 & _)]; [by rewrite lookup_empty in H0|].
    pose proof (Hone _ _ Ht1 Ht2) as Heq. rewrite Ha1, Ha2 in Heq. subst a2.
    cbn in Hnd. apply NoDup_cons in Hnd as [Hnd _]. apply Hnd. apply elem_of_cons. by left. }
  by rewrite (Permutation_short _ _ Hlen (range_perm ro1 _)),
             (Permutation_short _ _ Hlen (range_perm ro2 _)).
Qed.

(** A call served from the cache for a tree with one variable returns the
    same string whatever the order of ranging over the map. *)
Lemma marshal_single_variable U (ro1 ro2 : rangeOrder) q wrapper fields c operation :
  cache_Load c q = Some operation ->
  (forall t1 t2, t1 ∈ tokens operation -> t2 ∈ tokens operation -> t_Arg t1 = t_Arg t2) ->
  marshal U ro1 q wrapper fields c = marshal U ro2 q wrapper fields c.
Proof.
  intros Hload Hone. unfold marshal. rewrite (operation_of_hit _ _ _ _ Hload).
  by rewrite (argsFromTokens_single_variable ro1 ro2 _ Hone).
Qed.

(** ** The scenarios of the package tests *)

Example marshal_Simple :
  (marshal latin1Tables range_listed type_simple "query" None []).1
  = Ok ("query {" +:+ newline +:+ "testQuery {" +:+ newline +:+ "fieldOne" +:+ newline
        +:+ "fieldTwo" +:+ newline +:+ "}" +:+ newline +:+ "}").
Proof. vm_compute. reflexivity. Qed.

Example marshal_Mutation_WithVariables :
  (MarshalMutation latin1Tables range_reversed
     (TStruct EmptyString
        [exported "TestMutation" "testMutation(id:$id<ID!>)"
           (TStruct EmptyString
              [exported "FieldOne" "@alias(fooBar)" string_type;
               exported "FieldTwo" "@skip($ifCondition)" string_type])])
     None []).1
  = Ok ("mutation($id: ID!, $ifCondition: Boolean!) {" +:+ newline
        +:+ "testMutation(id: $id) {" +:+ newline
        +:+ "fooBar: fieldOne" +:+ newline
        +:+ "fieldTwo @skip(if: $ifCondition)" +:+ newline +:+ "}" +:+ newline +:+ "}").
Proof. vm_compute. reflexivity. Qed.

Example marshal_SparseFieldsetAndKeepTag :
  (MarshalQuery latin1Tables range_listed
     (TStruct EmptyString
        [exported "TestQuery" "testQuery(id:$id<ID!>)"
           (TStruct EmptyString
              [exported "FieldOne" EmptyString string_type;
               exported "FieldTwo" EmptyString string_type;
               exported "FieldThree" EmptyString string_type;
               exported "NestedField" "keep"
                 (TStruct EmptyString
                    [exported "FieldOne" EmptyString string_type;
                     exported "FieldTwo" EmptyString string_type;
                     exported "FieldXYZ" EmptyString string_type;
                     exported "FieldABC" "keep" string_type])])])
     (Some {[ "fieldOne" := IBool true; "fieldTwo" := IBool true;
              "nestedField" := IFields (Some {[ "fieldXYZ" := IBool true ]}) ]}) []).1
  = Ok ("query($id: ID!) {" +:+ newline +:+ "testQuery(id: $id) {" +:+ newline
        +:+ "fieldOne" +:+ newline +:+ "fieldTwo" +:+ newline
        +:+ "nestedField {" +:+ newline +:+ "fieldXYZ" +:+ newline +:+ "fieldABC" +:+ newline
        +:+ "}" +:+ newline +:+ "}" +:+ newline +:+ "}").
Proof. vm_compute. reflexivity. Qed.

Example splitTag_arguments :
  splitTag "getUser(name:$name<String!>,age:$age<Int>),@alias(u), keep"
  = ["getUser(name:$name<String!>,age:$age<Int>)"; "@alias(u)"; " keep"].
Proof. vm_compute. reflexivity. Qed.

Example toLowerCamelCase_tests :
  map (toLowerCamelCase latin1Tables)
    ["lower camel case this"; "lower-camel-case-this"; "lower_camel_case_this";
     "lower.camel.case.this"; "LowerCamelCaseThis"; "ID"]
  = ["lowerCamelCaseThis"; "lowerCamelCaseThis"; "lowerCamelCaseThis";
     "lowerCamelCaseThis"; "lowerCamelCaseThis"; "id"].
Proof. vm_compute. reflexivity. Qed.

Example FieldsFromDelimitedList_TwoLevels :
  FieldsFromDelimitedList "foo/bar|bar/baz|baz/foo" "|" "/"
  = Ok (Some {[ "foo" := IFields (Some {[ "bar" := IBool true ]});
                "bar" := IFields (Some {[ "baz" := IBool true ]});
                "baz" := IFields (Some {[ "foo" := IBool true ]}) ]}).
Proof. vm_compute. reflexivity. Qed.
